(** * Integrators: polynomial functions and two definite-integral strategies

    A shallow embedding of [FileName.cpp]: the [Function] hierarchy with its
    single variant [PolynomicalFunction], the [Integrator] hierarchy
    ([AnalyticalIntegrator], [RiemannIntegrator]) and the driver
    [printTable].

    - a C++ [double] is a primitive IEEE-754 binary64 float; [+ - * /] are the
      kernel's correctly rounded operations;
    - [std::pow] and the default [operator<<(double)] formatting belong to the
      C++ runtime, not to this repository: they are the two fields of the
      class [Runtime], and every theorem holds for every runtime;
    - output streams are handles into a finite map from handle to the text
      written so far; [cout] is one such handle, so that a stream passed by
      reference may alias it;
    - the conversion [(int)d] is undefined for a NaN, an infinity or a value
      outside the range of [int]: it returns [option], and so does whatever
      calls it;
    - an [int] index is a [nat] (vectors here are far shorter than [2^31]),
      converted to [double] where the source converts it; expressions are
      evaluated operation by operation, with no fused multiply-add. *)

From Stdlib Require Import ZArith Floats String Ascii Decimal DecimalString Lia.
From stdpp Require Import base option list gmap.

Set Warnings "-inexact-float".

Local Open Scope Z_scope.

(** ** Numbers *)

Abbreviation double := PrimFloat.float.

Definition INT_MIN : Z := - 2 ^ 31.
Definition INT_MAX : Z := 2 ^ 31 - 1.

(** Implicit conversion [int -> double]; exact on the whole range of [int]. *)
Definition int_to_double (i : Z) : double :=
  if i <? 0
  then PrimFloat.opp (PrimFloat.of_uint63 (Uint63.of_Z (- i)))
  else PrimFloat.of_uint63 (Uint63.of_Z i).

(** The integer part of [(-1)^s * m * 2^e], rounding toward zero. *)
Definition truncate (s : bool) (m : positive) (e : Z) : Z :=
  let magnitude :=
    if 0 <=? e then Z.pos m * 2 ^ e else Z.quot (Z.pos m) (2 ^ (- e)) in
  if s then - magnitude else magnitude.

(** The cast [(int)d]: truncation toward zero, undefined ([None]) when the
    truncated value is not representable in [int]. *)
Definition double_to_int (d : double) : option Z :=
  match Prim2SF d with
  | S754_zero _ => Some 0
  | S754_finite s m e =>
      let n := truncate s m e in
      if (INT_MIN <=? n) && (n <=? INT_MAX) then Some n else None
  | S754_infinity _ | S754_nan => None
  end.

#[global] Instance double_inhabited : Inhabited double := populate PrimFloat.zero.

(** ** The C++ runtime *)

Class Runtime := {
  (** [std::pow(double, double)] of <cmath>. *)
  pow : double -> double -> double;
  (** the characters [operator<<(ostream&, double)] inserts under the
      stream's default flags. *)
  show_double : double -> string;
}.

(** [operator<<(ostream&, int)]: the decimal numeral. *)
Definition show_int (i : Z) : string := NilZero.string_of_int (Z.to_int i).

(** [std::endl] inserts a line feed (and flushes, which leaves no trace in
    the text written). *)
Definition endl : string := String (ascii_of_nat 10) EmptyString.

(** ** Output streams *)

Definition ostream := nat.
Definition cout : ostream := 1%nat.
Definition cerr : ostream := 2%nat.

(** The text each stream has received so far. *)
Abbreviation world := (gmap ostream string).

Definition written (w : world) (s : ostream) : string :=
  default EmptyString (w !! s).

(** [s << txt] *)
Definition put (s : ostream) (txt : string) (w : world) : world :=
  <[s := (written w s ++ txt)%string]> w.

(** ** Loops *)

(** [for (int i = start; <count more iterations>; i++) s = body(i, s);] *)
Fixpoint for_loop {S : Type} (count : nat) (i : nat) (body : nat -> S -> S)
    (s : S) : S :=
  match count with
  | O => s
  | Datatypes.S k => for_loop k (Datatypes.S i) body (body i s)
  end.

(** [for (int i = 0; i < n; i++)] with [n] a [size_t]. *)
Definition for_size {S : Type} (n : nat) (body : nat -> S -> S) (s : S) : S :=
  for_loop n 0 body s.

(** [for (int i = 0; i < n; i++)] with [n] an [int]: no iteration when
    [n <= 0]. *)
Definition for_int {S : Type} (n : Z) (body : nat -> S -> S) (s : S) : S :=
  for_loop (Z.to_nat n) 0 body s.

(** Folding over a list together with the position of each element. *)
Fixpoint fold_indexed {A S : Type} (f : nat -> A -> S -> S) (i : nat)
    (l : list A) (s : S) : S :=
  match l with
  | [] => s
  | a :: l' => fold_indexed f (Datatypes.S i) l' (f i a s)
  end.

(** ** The [Function] interface *)

(** The abstract class [Function]. [antiderivative] hands back a new object
    of the hierarchy; [print] receives the stream by reference. *)
Class Function (F : Type) := {
  evaluate : F -> double -> double;
  antiderivative : F -> F;
  print : F -> ostream -> world -> world;
}.

(** ** [PolynomicalFunction] *)

Record PolynomicalFunction := { coefficients : list double }.

Section Polynomical.
Context `{Runtime}.

Definition poly_evaluate (p : PolynomicalFunction) (x : double) : double :=
  let result := 0%float in
  for_size (length (coefficients p))
    (fun i result =>
       (result + (coefficients p !!! i) * pow x (int_to_double (Z.of_nat i)))%float)
    result.

Definition poly_antiderivative (p : PolynomicalFunction) : PolynomicalFunction :=
  let newCoeffs := replicate (length (coefficients p) + 1) 0%float in
  {| coefficients :=
       for_size (length (coefficients p))
         (fun i newCoeffs =>
            <[(i + 1)%nat :=
                ((coefficients p !!! i) / int_to_double (Z.of_nat i + 1))%float]>
              newCoeffs)
         newCoeffs |}.

(** The body of the loop of [print], at the coefficient [c] of index [i]. *)
Definition print_coefficient (i : nat) (c : double) (w : world) : world :=
  if (i =? 0)%nat
  then put cout (show_double c) w
  else
    put cout (show_int (Z.of_nat i))
      (put cout "x^" (put cout (show_double c) (put cout " + " w))).

(** The parameter [stream] is never used: every insertion names [cout]. *)
Definition poly_print (p : PolynomicalFunction) (stream : ostream)
    (w : world) : world :=
  let w :=
    for_size (length (coefficients p))
      (fun i w => print_coefficient i (coefficients p !!! i) w)
      w in
  put cout endl w.

#[global] Instance PolynomicalFunction_Function : Function PolynomicalFunction := {
  evaluate := poly_evaluate;
  antiderivative := poly_antiderivative;
  print := poly_print;
}.

End Polynomical.

(** ** The [Integrator] hierarchy *)

Inductive Integrator :=
  | AnalyticalIntegrator
  | RiemannIntegrator (h : double).

(** What leaves a constructor call: the object, or an exception. The
    specification names one condition, [InvalidParameter]; the source has no
    [throw]. *)
Inductive Exception := InvalidParameter.

(** [RiemannIntegrator(double h = 0.001) : h(h) {}] *)
Definition RiemannIntegrator_new (h : double) : Exception + Integrator :=
  inr (RiemannIntegrator h).

Definition default_h : double := 0.001%float.

Section Integrators.
Context `{Runtime} {F : Type} `{Function F}.

Definition analytical_integrate (f : F) (a b : double) : double :=
  let p := antiderivative f in
  (evaluate p b - evaluate p a)%float.

Definition riemann_integrate (h : double) (f : F) (a b : double) : option double :=
  n ← double_to_int ((b - a) / h)%float;
  let sum := 0%float in
  Some (for_int n
          (fun i sum =>
             let x1 := (a + int_to_double (Z.of_nat i) * h)%float in
             let x2 := (x1 + h)%float in
             let y1 := evaluate f x1 in
             let y2 := evaluate f x2 in
             (sum + (x2 - x1) * ((y2 + y1) / 2))%float)
          sum).

(** Virtual dispatch on the integrator. *)
Definition integrate (it : Integrator) (f : F) (a b : double) : option double :=
  match it with
  | AnalyticalIntegrator => Some (analytical_integrate f a b)
  | RiemannIntegrator h => riemann_integrate h f a b
  end.

(** Both overrides leave [stream] unused. *)
Definition integrator_print (it : Integrator) (stream : ostream) (w : world) : world :=
  match it with
  | AnalyticalIntegrator => put cout "Analytical" w
  | RiemannIntegrator _ => put cout "Riemann Sum" w
  end.

(** ** The driver *)

(** [v[i]] on a vector is undefined out of range: [v !! i] is [None] there. *)
Definition printTable (functions : list F) (itors : list Integrator)
    (a b : double) (w : world) : option world :=
  for_size (length functions)
    (fun i ow =>
       w ← ow;
       fi ← functions !! i;
       let w := print fi cout w in
       w ← for_size (length itors)
              (fun j ow =>
                 w ← ow;
                 it ← itors !! j;
                 r ← integrate it fi a b;
                 Some (put cout ";" (put cout (show_double r) w)))
              (Some w);
       Some (put cout endl w))
    (Some w).

End Integrators.

(** [main]: one polynomial, [2 + 4x^3 + 5x^7], both integrators, over
    [[0.5, 1.5]]. *)
Definition main `{Runtime} (w : world) : option world :=
  let coeffs : list double := [2; 0; 0; 4; 0; 0; 0; 5]%float in
  let functions := [ {| coefficients := coeffs |} ] in
  let itors := [ AnalyticalIntegrator; RiemannIntegrator default_h ] in
  printTable functions itors 0.5%float 1.5%float w.

(** ** The statements of the specification *)

Section Specification.
Context `{Runtime}.

(** The term [c * x^i]. *)
Definition term (x : double) (i : nat) (c : double) : double :=
  (c * pow x (int_to_double (Z.of_nat i)))%float.

(** [Σ c_i * x^i], accumulated from [0.0] left to right over increasing
    index. *)
Definition power_sum (cs : list double) (x : double) : double :=
  fold_left PrimFloat.add (imap (term x) cs) 0%float.

(** [c / (i + 1)], the coefficient of [x^(i+1)] in the antiderivative. *)
Definition quotient (i : nat) (c : double) : double :=
  (c / int_to_double (Z.of_nat i + 1))%float.

(** [[0, c0/1, c1/2, ..., cn/(n+1)]] *)
Definition antiderivative_coefficients (cs : list double) : list double :=
  0%float :: imap quotient cs.

(** The area [(x2 - x1) * (f(x1) + f(x2)) / 2] of the trapezoid number [i],
    where [x1 = a + i*h] and [x2 = x1 + h]. *)
Definition trapezoid (f : double -> double) (a h : double) (i : nat) : double :=
  let x1 := (a + int_to_double (Z.of_nat i) * h)%float in
  let x2 := (x1 + h)%float in
  ((x2 - x1) * ((f x1 + f x2) / 2))%float.

(** The sum of the trapezoids [0 .. n-1], accumulated from [0.0]. *)
Definition trapezoid_sum (f : double -> double) (a h : double) (n : Z) : double :=
  fold_left (fun sum i => (sum + trapezoid f a h i)%float)
    (seq 0 (Z.to_nat n)) 0%float.

(** What [print] writes for the coefficient at index [i]. *)
Definition printed_term (i : nat) (c : double) : string :=
  if (i =? 0)%nat then show_double c
  else (show_double c ++ "x^" ++ show_int (Z.of_nat i))%string.

(** The term [c*x^i] as the specification writes it. *)
Definition starred_term (i : nat) (c : double) : string :=
  if (i =? 0)%nat then show_double c
  else (show_double c ++ "*x^" ++ show_int (Z.of_nat i))%string.

(** The terms, separated by [" + "], then a newline. *)
Definition sum_line (terms : list string) : string :=
  (String.concat " + " terms ++ endl)%string.

Definition poly_text (cs : list double) : string :=
  sum_line (imap printed_term cs).

Definition starred_text (cs : list double) : string :=
  sum_line (imap starred_term cs).

(** What an integrator's [print] writes. *)
Definition integrator_name (it : Integrator) : string :=
  match it with
  | AnalyticalIntegrator => "Analytical"
  | RiemannIntegrator _ => "Riemann Sum"
  end.

Context {F : Type} `{Function F}.

(** One row after the function's text: each integrator's result followed by
    a semicolon, in sequence order. *)
Fixpoint row_cells (itors : list Integrator) (f : F) (a b : double)
    (w : world) : option world :=
  match itors with
  | [] => Some w
  | it :: itors' =>
      r ← integrate it f a b;
      row_cells itors' f a b (put cout (show_double r ++ ";")%string w)
  end.

(** Row after row in sequence order: the function's text, its cells, a
    newline. *)
Fixpoint table_rows (functions : list F) (itors : list Integrator)
    (a b : double) (w : world) : option world :=
  match functions with
  | [] => Some w
  | f :: functions' =>
      w ← row_cells itors f a b (print f cout w);
      table_rows functions' itors a b (put cout endl w)
  end.

End Specification.

(** Every stream but [cout] holds in [w'] what it held in [w]. *)
Definition only_cout (w w' : world) : Prop :=
  forall s : ostream, s <> cout -> w' !! s = w !! s.

(** A number that is not finite and positive: zero, negative, infinite or
    NaN. Its integer part, where [(int)] defines one, is at most 0. *)
Definition not_positive (x : spec_float) : Prop :=
  match x with
  | S754_finite false _ _ => False
  | _ => True
  end.

(** A number below one in magnitude: its integer part is 0. *)
Definition below_one (x : spec_float) : Prop :=
  match x with
  | S754_finite s m e => truncate s m e = 0
  | _ => True
  end.

(** A finite number of this kind has an integer part that is at most 0. *)
Definition integer_part_nonpositive (x : spec_float) : Prop :=
  match x with
  | S754_finite s m e => truncate s m e <= 0
  | _ => True
  end.

(** ** Further statements about the code *)

(** A zero or a finite non-zero number: neither an infinity nor a NaN. *)
Definition is_finite_double (d : double) : bool :=
  match Prim2SF d with
  | S754_zero _ | S754_finite _ _ _ => true
  | S754_infinity _ | S754_nan => false
  end.

(** A number other than zero: finite and non-zero, or an infinity. *)
Definition is_nonzero_number (d : double) : bool :=
  match Prim2SF d with
  | S754_finite _ _ _ | S754_infinity _ => true
  | S754_zero _ | S754_nan => false
  end.

(** [w'] is [w] with [text] appended to [cout] and nothing else changed. *)
Definition appended (text : string) (w w' : world) : Prop :=
  written w' cout = (written w cout ++ text)%string /\ only_cout w w'.

(** Applying [antiderivative] [k] times. *)
Fixpoint antiderivatives {F : Type} `{Function F} (k : nat) (f : F) : F :=
  match k with
  | O => f
  | Datatypes.S k' => antiderivative (antiderivatives k' f)
  end.

Section TableText.
Context `{Runtime} {F : Type} `{Function F}.

(** The cells of one row as text: each result, then a semicolon. *)
Fixpoint row_text (itors : list Integrator) (f : F) (a b : double)
    : option string :=
  match itors with
  | [] => Some EmptyString
  | it :: itors' =>
      r ← integrate it f a b;
      rest ← row_text itors' f a b;
      Some (show_double r ++ ";" ++ rest)%string
  end.

(** With no integrator, a row is the function's text and a newline. *)
Definition print_line (w : world) (f : F) : world :=
  put cout endl (print f cout w).

End TableText.

(** The whole table of polynomials as text: per row, the polynomial's line,
    the cells, a newline. *)
Fixpoint table_text `{Runtime} (functions : list PolynomicalFunction)
    (itors : list Integrator) (a b : double) : option string :=
  match functions with
  | [] => Some EmptyString
  | p :: functions' =>
      cells ← row_text itors p a b;
      rest ← table_text functions' itors a b;
      Some (poly_text (coefficients p) ++ cells ++ endl ++ rest)%string
  end.

(** ** A reference runtime

    For running the model on concrete inputs. On an integer exponent
    [pow_by_squaring] multiplies: it is exact whenever every intermediate
    product is representable, and returns what Annex F of the C standard
    fixes for [pow(x, 0)] and [pow(x, 1)]. [show_integral] gives a signed
    zero and an integer-valued double below [10^6] in magnitude the numeral
    that the default [%g]-style formatting of iostream gives them. Outside
    these domains both are stand-ins ([nan], ["#"]). *)

Fixpoint pow_pos (x : double) (n : positive) : double :=
  match n with
  | xH => x
  | xO n' => let y := pow_pos x n' in (y * y)%float
  | xI n' => let y := pow_pos x n' in (x * (y * y))%float
  end.

Definition pow_by_squaring (x y : double) : double :=
  match double_to_int y with
  | Some n =>
      if PrimFloat.eqb (int_to_double n) y
      then match n with
           | Z0 => 1%float
           | Z.pos k => pow_pos x k
           | Z.neg k => (1 / pow_pos x k)%float
           end
      else PrimFloat.nan
  | None => PrimFloat.nan
  end.

Definition show_integral (d : double) : string :=
  match Prim2SF d, double_to_int d with
  | S754_zero true, _ => "-0"
  | _, Some n =>
      if PrimFloat.eqb (int_to_double n) d && (Z.abs n <? 10 ^ 6)
      then show_int n
      else "#"
  | _, None => "#"
  end.

Definition reference : Runtime :=
  {| pow := pow_by_squaring; show_double := show_integral |}.

(** [PolynomicalFunction] on the reference runtime. *)
Definition ReferencePolynomical : Function PolynomicalFunction :=
  @PolynomicalFunction_Function reference.

(** * Proofs *)

(** ** Loops as folds *)

Section Loops.
Context {A S : Type}.

(** A counted loop whose body reads the element at its index folds over the
    elements. *)
Lemma for_loop_elems (body : nat -> S -> S) (f : nat -> A -> S -> S)
    (l : list A) :
  forall (i : nat) (s : S),
    (forall k a s', l !! k = Some a -> body (i + k)%nat s' = f (i + k)%nat a s') ->
    for_loop (length l) i body s = fold_indexed f i l s.
Proof.
  induction l as [|a l IH]; intros i s Hbody; simpl; [reflexivity|].
  rewrite <- (Nat.add_0_r i) at 2 4.
  rewrite (Hbody 0%nat a s eq_refl), Nat.add_0_r.
  apply IH. intros k a' s' Hk.
  replace (Datatypes.S i + k)%nat with (i + Datatypes.S k)%nat by lia.
  now apply Hbody.
Qed.

(** A counted loop folds its body over the indices it visits. *)
Lemma for_loop_seq (body : nat -> S -> S) :
  forall (count i : nat) (s : S),
    for_loop count i body s = fold_left (fun s' j => body j s') (seq i count) s.
Proof.
  induction count as [|count IH]; intros i s; simpl; [reflexivity|].
  apply IH.
Qed.

Lemma fold_indexed_imap {B : Type} (g : S -> B -> S) (t : nat -> A -> B)
    (l : list A) :
  forall (i : nat) (s : S),
    fold_indexed (fun j a s' => g s' (t j a)) i l s
    = fold_left g (imap (fun k => t (i + k)%nat) l) s.
Proof.
  induction l as [|a l IH]; intros i s; simpl; [reflexivity|].
  rewrite Nat.add_0_r, IH. f_equal.
  apply imap_ext. intros k x _. simpl. now rewrite Nat.add_succ_r.
Qed.

End Loops.

(** ** The polynomial *)

Section PolynomicalProofs.
Context `{Runtime}.

Lemma poly_evaluate_power_sum (p : PolynomicalFunction) (x : double) :
  poly_evaluate p x = power_sum (coefficients p) x.
Proof.
  unfold poly_evaluate, for_size, power_sum.
  rewrite (for_loop_elems _ (fun j c s => (s + term x j c)%float)).
  - apply (fold_indexed_imap PrimFloat.add (term x)).
  - intros k a s' Hk. simpl.
    now rewrite (list_lookup_total_correct _ _ _ Hk).
Qed.

End PolynomicalProofs.

Section AntiderivativeProofs.

(** Invariant of the loop of [antiderivative]: the slots up to the current
    index are final, the others still hold the zero they were created
    with. *)
Lemma antiderivative_loop (l : list double) :
  forall (i : nat) (done : list double),
    length done = Datatypes.S i ->
    fold_indexed (fun j c acc => <[Datatypes.S j := quotient j c]> acc) i l
      (done ++ replicate (length l) 0%float)
    = done ++ imap (fun k => quotient (i + k)) l.
Proof.
  induction l as [|c l IH]; intros i done Hlen; simpl; [reflexivity|].
  rewrite insert_app_r_alt by lia.
  replace (Datatypes.S i - length done)%nat with 0%nat by lia. simpl.
  rewrite (cons_middle (quotient i c)), app_assoc.
  rewrite IH by (rewrite length_app; simpl; lia).
  rewrite <- app_assoc. simpl. rewrite Nat.add_0_r. do 2 f_equal.
  apply imap_ext. intros k x _. simpl. f_equal. lia.
Qed.

Lemma poly_antiderivative_coefficients (p : PolynomicalFunction) :
  coefficients (poly_antiderivative p)
  = antiderivative_coefficients (coefficients p).
Proof.
  unfold poly_antiderivative, for_size, antiderivative_coefficients. simpl.
  rewrite (for_loop_elems _
             (fun j c acc => <[Datatypes.S j := quotient j c]> acc)).
  - rewrite Nat.add_1_r. simpl.
    apply (antiderivative_loop (coefficients p) 0 [0%float] eq_refl).
  - intros k a s' Hk. simpl.
    rewrite (list_lookup_total_correct _ _ _ Hk), Nat.add_1_r. reflexivity.
Qed.

End AntiderivativeProofs.

(** ** Facts of binary64 arithmetic *)

Section Binary64.

Lemma SFadd_comm (x y : spec_float) :
  SFadd prec emax x y = SFadd prec emax y x.
Proof.
  destruct x as [sx|sx| |sx mx ex], y as [sy|sy| |sy my ey];
    try reflexivity; try (destruct sx, sy; reflexivity).
  unfold SFadd. now rewrite Z.min_comm, Z.add_comm.
Qed.

Lemma add_comm (x y : double) : (x + y)%float = (y + x)%float.
Proof.
  apply Prim2SF_inj. rewrite !add_spec. apply SFadd_comm.
Qed.

(** Rounding is symmetric: the sign only labels the result. *)
Lemma binary_round_aux_opp (s : bool) (m e : Z) (l : location) :
  SFopp (binary_round_aux prec emax s m e l)
  = binary_round_aux prec emax (negb s) m e l.
Proof.
  unfold binary_round_aux.
  destruct (shr_fexp prec emax m e l) as [mrs' e'].
  destruct (shr_fexp prec emax _ e' loc_Exact) as [mrs'' e''].
  destruct (shr_m mrs''); try reflexivity.
  now destruct (e'' <=? emax - prec).
Qed.

Lemma binary_normalize_opp (m e : Z) :
  m <> 0 ->
  binary_normalize prec emax (- m) e false
  = SFopp (binary_normalize prec emax m e false).
Proof.
  intros Hm. destruct m as [|p|p]; [congruence| |]; simpl;
    unfold binary_round; destruct (shl_align _ _ _) as [mz ez];
    now rewrite binary_round_aux_opp.
Qed.

(** [y - x] is the opposite of [x - y], except that an exact zero
    difference is [+0] both ways. *)
Lemma SFsub_swap (x y : spec_float) :
  SFsub prec emax y x = SFopp (SFsub prec emax x y)
  \/ (SFsub prec emax x y = S754_zero false
      /\ SFsub prec emax y x = S754_zero false).
Proof.
  destruct x as [sx|sx| |sx mx ex], y as [sy|sy| |sy my ey];
    try (left; reflexivity);
    try (destruct sx, sy; (left; reflexivity) || (right; split; reflexivity));
    try (left; simpl; now rewrite negb_involutive).
  unfold SFsub. rewrite (Z.min_comm ey ex).
  set (X := cond_Zopp sx _). set (Y := cond_Zopp sy _).
  replace (Y - X) with (- (X - Y)) by lia.
  destruct (Z.eq_dec (X - Y) 0) as [E|E].
  - right. rewrite E. split; reflexivity.
  - left. now apply binary_normalize_opp.
Qed.

Lemma sub_swap (x y : double) :
  (y - x)%float = (- (x - y))%float
  \/ ((x - y)%float = 0%float /\ (y - x)%float = 0%float).
Proof.
  destruct (SFsub_swap (Prim2SF x) (Prim2SF y)) as [E|[E1 E2]].
  - left. apply Prim2SF_inj. now rewrite opp_spec, !sub_spec.
  - right. split; apply Prim2SF_inj; now rewrite sub_spec.
Qed.

(** Opposite numbers lie on opposite sides of zero. *)
Lemma leb_opp_zero (r : double) :
  PrimFloat.leb (- r) 0 = PrimFloat.leb 0 r.
Proof.
  rewrite !leb_spec, opp_spec.
  change (Prim2SF 0) with (S754_zero false).
  destruct (Prim2SF r) as [s|s| |s m e]; try reflexivity; now destruct s.
Qed.

(** Dividing by zero never yields a finite number. *)
Lemma div_zero_undefined (x : double) :
  double_to_int (x / 0)%float = None.
Proof.
  unfold double_to_int. rewrite div_spec.
  change (Prim2SF 0) with (S754_zero false).
  now destruct (Prim2SF x).
Qed.

(** [truncate] is the integer part: its magnitude is the largest integer
    not above [m * 2^e], and its sign is that of the number. *)
Lemma truncate_toward_zero (s : bool) (m : positive) (e : Z) :
  let n := truncate s m e in
  let numerator := Z.pos m * 2 ^ Z.max e 0 in
  let denominator := 2 ^ Z.max (- e) 0 in
  Z.abs n * denominator <= numerator < (Z.abs n + 1) * denominator
  /\ (if s then n <= 0 else 0 <= n).
Proof.
  unfold truncate. destruct (0 <=? e) eqn:He.
  - apply Z.leb_le in He.
    rewrite (Z.max_l e 0), (Z.max_r (- e) 0) by lia. simpl (2 ^ 0).
    assert (0 < 2 ^ e) by (apply Z.pow_pos_nonneg; lia).
    destruct s; split; nia.
  - apply Z.leb_gt in He.
    rewrite (Z.max_r e 0), (Z.max_l (- e) 0) by lia. simpl (2 ^ 0).
    assert (Hd : 0 < 2 ^ (- e)) by (apply Z.pow_pos_nonneg; lia).
    rewrite Z.quot_div_nonneg by lia.
    pose proof (Z.mul_div_le (Z.pos m) _ Hd).
    pose proof (Z.mul_succ_div_gt (Z.pos m) _ Hd).
    pose proof (Z.div_pos (Z.pos m) _ ltac:(lia) Hd).
    destruct s; split; nia.
Qed.

End Binary64.

(** ** Signs of differences and quotients *)

Section Signs.

Lemma digits2_bounds (m : positive) :
  2 ^ (Z.pos (digits2_pos m) - 1) <= Z.pos m < 2 ^ Z.pos (digits2_pos m).
Proof.
  induction m as [m IH|m IH|]; cbn [digits2_pos]; [| |simpl; lia];
    rewrite Pos2Z.inj_succ;
    replace (Z.succ (Z.pos (digits2_pos m)) - 1)
      with (Z.succ (Z.pos (digits2_pos m) - 1)) by lia;
    rewrite !Z.pow_succ_r by lia; lia.
Qed.

Lemma iter_xO (m d : positive) :
  Z.pos (Pos.iter xO m d) = Z.pos m * 2 ^ Z.pos d.
Proof.
  induction d as [|d IH] using Pos.peano_ind.
  - simpl. lia.
  - rewrite Pos.iter_succ, Pos2Z.inj_succ, Z.pow_succ_r by lia.
    rewrite Pos2Z.inj_xO, IH. lia.
Qed.

Lemma shl_align_value (m : positive) (e ez : Z) :
  ez <= e ->
  Z.pos (fst (shl_align m e ez)) = Z.pos m * 2 ^ (e - ez).
Proof.
  intros Hle. unfold shl_align.
  destruct (ez - e) as [|d|d] eqn:Hd; [|lia|].
  - replace (e - ez) with 0 by lia. simpl. lia.
  - replace (e - ez) with (Z.pos d) by lia. simpl. apply iter_xO.
Qed.

(** A valid mantissa has at most 53 digits, and exactly 53 above the
    smallest exponent. *)
Lemma bounded_digits (m : positive) (e : Z) :
  bounded prec emax m e = true ->
  Z.pos (digits2_pos m) <= 53
  /\ -1074 <= e
  /\ (-1074 < e -> Z.pos (digits2_pos m) = 53).
Proof.
  unfold bounded, canonical_mantissa, fexp, SpecFloat.emin, prec, emax.
  intros Hb. apply andb_prop in Hb as [Hc _]. apply Z.eqb_eq in Hc. lia.
Qed.

(** Of two valid mantissas, the one with the smaller exponent is the
    smaller number. *)
Lemma bounded_exponent_lt (m1 m2 : positive) (e1 e2 : Z) :
  bounded prec emax m1 e1 = true ->
  bounded prec emax m2 e2 = true ->
  e1 < e2 ->
  Z.pos m1 < Z.pos m2 * 2 ^ (e2 - e1).
Proof.
  intros H1 H2 Hlt.
  apply bounded_digits in H1 as (Hd1 & He1 & _).
  apply bounded_digits in H2 as (_ & _ & Hd2).
  specialize (Hd2 ltac:(lia)).
  pose proof (digits2_bounds m1) as [_ Hm1].
  pose proof (digits2_bounds m2) as [Hm2 _]. rewrite Hd2 in Hm2.
  assert (Z.pos m1 < 2 ^ 53)
    by (eapply Z.lt_le_trans; [exact Hm1 | apply Z.pow_le_mono_r; lia]).
  assert (2 ^ 1 <= 2 ^ (e2 - e1)) by (apply Z.pow_le_mono_r; lia).
  change (2 ^ (53 - 1)) with 4503599627370496 in Hm2.
  change (2 ^ 53) with 9007199254740992 in *. change (2 ^ 1) with 2 in *.
  nia.
Qed.

(** The aligned mantissas of [x < y] compare as [x] and [y] do. *)
Lemma aligned_difference (sx sy : bool) (mx my : positive) (ex ey : Z) :
  bounded prec emax mx ex = true ->
  bounded prec emax my ey = true ->
  SFltb (S754_finite sx mx ex) (S754_finite sy my ey) = true ->
  cond_Zopp sx (Z.pos (fst (shl_align mx ex (Z.min ex ey))))
  - cond_Zopp sy (Z.pos (fst (shl_align my ey (Z.min ex ey)))) <= 0.
Proof.
  intros Hx Hy Hlt.
  rewrite !shl_align_value by lia.
  unfold SFltb, SFcompare in Hlt.
  destruct sx, sy; cbn [cond_Zopp]; try discriminate.
  - destruct (Z.compare_spec ex ey) as [->|Hlt'|Hgt]; try discriminate.
    + rewrite Z.min_id, Z.sub_diag, Z.pow_0_r.
      destruct (Pos.compare_cont Eq mx my) eqn:Hc; try discriminate.
      assert (my < mx)%positive by now apply Pos.compare_gt_iff.
      lia.
    + rewrite Z.min_r, Z.sub_diag, Z.pow_0_r by lia.
      pose proof (bounded_exponent_lt my mx ey ex Hy Hx ltac:(lia)). lia.
  - assert (0 < 2 ^ (ex - Z.min ex ey)) by (apply Z.pow_pos_nonneg; lia).
    assert (0 < 2 ^ (ey - Z.min ex ey)) by (apply Z.pow_pos_nonneg; lia).
    nia.
  - destruct (Z.compare_spec ex ey) as [->|Hlt'|Hgt]; try discriminate.
    + rewrite Z.min_id, Z.sub_diag, Z.pow_0_r.
      destruct (Pos.compare_cont Eq mx my) eqn:Hc; try discriminate.
      assert (mx < my)%positive by now apply Pos.compare_lt_iff.
      lia.
    + rewrite Z.min_l, Z.sub_diag, Z.pow_0_r by lia.
      pose proof (bounded_exponent_lt mx my ex ey Hx Hy ltac:(lia)). lia.
Qed.

(** Rounding under a negative sign yields nothing positive. *)
Lemma binary_round_aux_negative (m e : Z) (l : location) :
  not_positive (binary_round_aux prec emax true m e l).
Proof.
  unfold binary_round_aux.
  destruct (shr_fexp prec emax m e l) as [mrs' e'].
  destruct (shr_fexp prec emax _ e' loc_Exact) as [mrs'' e''].
  destruct (shr_m mrs''); simpl; try exact I.
  now destruct (e'' <=? emax - prec).
Qed.

Lemma binary_normalize_nonpositive (m e : Z) :
  m <= 0 -> not_positive (binary_normalize prec emax m e false).
Proof.
  intros Hm. destruct m as [|p|p]; [exact I|lia|]. simpl.
  unfold binary_round. destruct (shl_align _ _ _) as [mz ez].
  apply binary_round_aux_negative.
Qed.

Lemma SFsub_not_positive (x y : spec_float) :
  valid_binary x = true -> valid_binary y = true ->
  SFltb x y = true ->
  not_positive (SFsub prec emax x y).
Proof.
  intros Hx Hy Hlt.
  destruct x as [sx|sx| |sx mx ex], y as [sy|sy| |sy my ey];
    try discriminate; try exact I;
    try (destruct sx; try discriminate; exact I);
    try (destruct sy; try discriminate; exact I);
    try (destruct sx, sy; try discriminate; exact I).
  unfold SFsub. apply binary_normalize_nonpositive.
  now apply aligned_difference.
Qed.

Lemma SFdiv_not_positive (x y : spec_float) :
  not_positive x ->
  SFltb (S754_zero false) y = true ->
  not_positive (SFdiv prec emax x y).
Proof.
  intros Hx Hy.
  destruct x as [sx|sx| |sx mx ex], y as [sy|sy| |sy my ey];
    try discriminate; try exact I;
    try (destruct sy; try discriminate; try exact I).
  destruct sx; [|contradiction]. unfold SFdiv.
  destruct (SFdiv_core_binary _ _ _ _ _ _) as [[mz ez] lz].
  apply binary_round_aux_negative.
Qed.

Lemma truncate_negative (m : positive) (e : Z) : truncate true m e <= 0.
Proof.
  unfold truncate. destruct (0 <=? e) eqn:He.
  - apply Z.leb_le in He.
    assert (0 < 2 ^ e) by (apply Z.pow_pos_nonneg; lia). nia.
  - apply Z.leb_gt in He.
    assert (0 < 2 ^ (- e)) by (apply Z.pow_pos_nonneg; lia).
    pose proof (Z.quot_pos (Z.pos m) (2 ^ (- e)) ltac:(lia) ltac:(lia)). lia.
Qed.

(** With [b < a] and a positive step, the iteration count, where it is
    defined, is at most 0. *)
Lemma reversed_bounds_count (a b h : double) (n : Z) :
  PrimFloat.ltb b a = true ->
  PrimFloat.ltb 0 h = true ->
  double_to_int ((b - a) / h)%float = Some n ->
  n <= 0.
Proof.
  rewrite !ltb_spec. change (Prim2SF 0) with (S754_zero false).
  intros Hba Hh. unfold double_to_int. rewrite div_spec, sub_spec.
  pose proof (SFdiv_not_positive _ _
                (SFsub_not_positive _ _ (Prim2SF_valid b) (Prim2SF_valid a) Hba)
                Hh) as Hq.
  unfold SF64div, SF64sub.
  destruct (SFdiv prec emax _ _) as [s|s| |s m e]; try discriminate.
  - intros [= <-]. lia.
  - destruct s; [|contradiction].
    destruct (_ && _); [|discriminate].
    intros [= <-]. apply truncate_negative.
Qed.

End Signs.

(** ** Quotients below one *)

Section Shifts.

(** One shift to the right halves a non-negative mantissa. *)
Lemma shr_1_half (mrs : shr_record) :
  0 <= shr_m mrs ->
  shr_m (shr_1 mrs) = shr_m mrs / 2.
Proof.
  destruct mrs as [m r s]. cbn [shr_m shr_1]. intros Hm.
  destruct m as [|[p|p|]|p]; cbn [shr_m]; try reflexivity; try lia.
  - apply (Z.div_unique (Z.pos p~1) 2 (Z.pos p) 1); lia.
  - apply (Z.div_unique (Z.pos p~0) 2 (Z.pos p) 0); lia.
Qed.

(** Shifting an even mantissa with no bit lost so far loses no bit. *)
Lemma shr_1_exact (j : Z) :
  0 <= j ->
  shr_1 {| shr_m := 2 * j; shr_r := false; shr_s := false |}
  = {| shr_m := j; shr_r := false; shr_s := false |}.
Proof.
  intros Hj. destruct j as [|p|p]; [reflexivity|reflexivity|lia].
Qed.

Lemma pow2_xI (k : positive) :
  2 ^ Z.pos k~1 = 2 * (2 ^ Z.pos k * 2 ^ Z.pos k).
Proof.
  rewrite (Pos2Z.inj_xI k).
  replace (2 * Z.pos k + 1) with (1 + (Z.pos k + Z.pos k)) by lia.
  rewrite Z.pow_add_r, Z.pow_add_r by lia. reflexivity.
Qed.

Lemma pow2_xO (k : positive) :
  2 ^ Z.pos k~0 = 2 ^ Z.pos k * 2 ^ Z.pos k.
Proof.
  rewrite (Pos2Z.inj_xO k), <- Z.add_diag.
  now rewrite Z.pow_add_r by lia.
Qed.

(** [k] shifts divide a non-negative mantissa by [2^k]. *)
Lemma iter_shr_1_div (k : positive) :
  forall mrs : shr_record,
    0 <= shr_m mrs ->
    shr_m (SpecFloat.iter_pos shr_1 k mrs) = shr_m mrs / 2 ^ Z.pos k.
Proof.
  induction k as [k IH|k IH|]; intros mrs Hm; cbn [SpecFloat.iter_pos].
  - assert (H1 : 0 <= shr_m (shr_1 mrs))
      by (rewrite shr_1_half by lia; apply Z.div_pos; lia).
    assert (Hp : 0 < 2 ^ Z.pos k) by (apply Z.pow_pos_nonneg; lia).
    assert (H2 : 0 <= shr_m (SpecFloat.iter_pos shr_1 k (shr_1 mrs)))
      by (rewrite IH by lia; apply Z.div_pos; lia).
    rewrite IH, IH, shr_1_half by lia.
    rewrite !Z.div_div by lia. now rewrite pow2_xI.
  - assert (Hp : 0 < 2 ^ Z.pos k) by (apply Z.pow_pos_nonneg; lia).
    assert (H2 : 0 <= shr_m (SpecFloat.iter_pos shr_1 k mrs))
      by (rewrite IH by lia; apply Z.div_pos; lia).
    rewrite IH, IH by lia.
    rewrite Z.div_div by lia. now rewrite pow2_xO.
  - rewrite shr_1_half by lia. reflexivity.
Qed.

(** [k] shifts of a multiple of [2^k], no bit lost so far, lose no bit. *)
Lemma iter_shr_1_exact (k : positive) :
  forall j : Z,
    0 <= j ->
    SpecFloat.iter_pos shr_1 k
      {| shr_m := j * 2 ^ Z.pos k; shr_r := false; shr_s := false |}
    = {| shr_m := j; shr_r := false; shr_s := false |}.
Proof.
  induction k as [k IH|k IH|]; intros j Hj; cbn [SpecFloat.iter_pos].
  - assert (Hp : 0 < 2 ^ Z.pos k) by (apply Z.pow_pos_nonneg; lia).
    rewrite pow2_xI.
    replace (j * (2 * (2 ^ Z.pos k * 2 ^ Z.pos k)))
      with (2 * (j * 2 ^ Z.pos k * 2 ^ Z.pos k)) by lia.
    rewrite shr_1_exact by nia. rewrite IH by nia. now apply IH.
  - assert (Hp : 0 < 2 ^ Z.pos k) by (apply Z.pow_pos_nonneg; lia).
    rewrite pow2_xO, Z.mul_assoc. rewrite IH by nia. now apply IH.
  - change (2 ^ 1) with 2. rewrite Z.mul_comm. now apply shr_1_exact.
Qed.

End Shifts.

Section Rounding.

Lemma shr_record_of_loc_m (m : Z) (l : location) :
  shr_m (shr_record_of_loc m l) = m.
Proof.
  destruct l as [|[| |]]; reflexivity.
Qed.

(** Below [2^k], at most [k] digits. *)
Lemma Zdigits2_le (m k : Z) :
  0 <= m < 2 ^ k -> 0 <= k -> Zdigits2 m <= k.
Proof.
  intros [Hm Hlt] Hk. destruct m as [|p|p]; cbn [Zdigits2]; [lia| |lia].
  pose proof (digits2_bounds p) as [Hlow _].
  assert (2 ^ (Z.pos (digits2_pos p) - 1) < 2 ^ k) by lia.
  apply Z.pow_lt_mono_r_iff in H; lia.
Qed.

(** What [shr_fexp] does to a non-negative mantissa: it moves to the
    exponent of the format, dividing the mantissa accordingly, and an exact
    mantissa that loses no bit stays exact. *)
Lemma shr_fexp_floor (m e : Z) (l : location) (mrs : shr_record) (e1 : Z) :
  0 <= m ->
  shr_fexp prec emax m e l = (mrs, e1) ->
  e1 = Z.max e (fexp prec emax (Zdigits2 m + e))
  /\ shr_m mrs = m / 2 ^ (e1 - e)
  /\ (l = loc_Exact -> m mod 2 ^ (e1 - e) = 0 ->
      loc_of_shr_record mrs = loc_Exact).
Proof.
  intros Hm. unfold shr_fexp, shr.
  destruct (fexp prec emax (Zdigits2 m + e) - e) as [|p|p] eqn:Hn;
    intros [= <- <-].
  - replace (e - e) with 0 by lia. rewrite Z.pow_0_r, Z.div_1_r.
    rewrite shr_record_of_loc_m. repeat split; [lia|].
    now intros -> _.
  - replace (e + Z.pos p - e) with (Z.pos p) by lia.
    rewrite iter_shr_1_div by (rewrite shr_record_of_loc_m; lia).
    rewrite shr_record_of_loc_m. repeat split; [lia|].
    intros -> Hmod. cbn [shr_record_of_loc].
    assert (Hp : 0 < 2 ^ Z.pos p) by (apply Z.pow_pos_nonneg; lia).
    rewrite (Z.div_mod m (2 ^ Z.pos p)) by lia. rewrite Hmod, Z.add_0_r.
    rewrite (Z.mul_comm (2 ^ Z.pos p)).
    rewrite iter_shr_1_exact by (apply Z.div_pos; lia).
    reflexivity.
  - replace (e - e) with 0 by lia. rewrite Z.pow_0_r, Z.div_1_r.
    rewrite shr_record_of_loc_m. repeat split; [lia|].
    now intros -> _.
Qed.

Lemma round_nearest_even_bounds (m : Z) (l : location) :
  m <= round_nearest_even m l <= m + 1
  /\ (l = loc_Exact -> round_nearest_even m l = m).
Proof.
  split; [|now intros ->].
  destruct l as [|[| |]]; cbn [round_nearest_even]; try lia.
  destruct (Z.even m); lia.
Qed.

(** A mantissa below [2^-e] makes a number below one. *)
Lemma truncate_small (s : bool) (m : positive) (e : Z) (bound : Z) :
  Z.pos m < bound -> bound <= 2 ^ (- e) -> e < 0 ->
  truncate s m e = 0.
Proof.
  intros Hm Hb He. unfold truncate.
  destruct (Z.leb_spec 0 e) as [|_]; [lia|].
  rewrite Z.quot_small by lia. now destruct s.
Qed.

(** Rounding a number that is at most [1 - 2^-53], exact when it is
    [1 - 2^-53], yields a number below one. *)
Lemma binary_round_aux_below_one (s : bool) (mz ez : Z) (lz : location) :
  0 <= mz ->
  ez <= -53 ->
  mz * 2 ^ 53 <= (2 ^ 53 - 1) * 2 ^ (- ez) ->
  (mz * 2 ^ 53 = (2 ^ 53 - 1) * 2 ^ (- ez) -> lz = loc_Exact) ->
  below_one (binary_round_aux prec emax s mz ez lz).
Proof.
  intros Hmz Hez Hbound Hexact. unfold binary_round_aux.
  destruct (shr_fexp prec emax mz ez lz) as [mrs1 e1] eqn:H1.
  apply shr_fexp_floor in H1 as (He1 & Hm1 & Hloc1); [|exact Hmz].
  set (m1 := shr_m mrs1) in *.
  set (m2 := round_nearest_even m1 (loc_of_shr_record mrs1)).
  assert (Hpz : 0 < 2 ^ (- ez)) by (apply Z.pow_pos_nonneg; lia).
  assert (H53 : 2 ^ 53 = 9007199254740992) by reflexivity.
  (* the mantissa has at most [-ez] digits, so the exponent stays low *)
  assert (Hdz : Zdigits2 mz + ez <= 0).
  { pose proof (Zdigits2_le mz (- ez)). lia. }
  assert (He1' : ez <= e1 <= -53).
  { unfold fexp, SpecFloat.emin, prec, emax in He1. lia. }
  (* [m1] is the quotient of [mz] by [2^(e1 - ez)] *)
  set (P := 2 ^ (e1 - ez)) in *.
  assert (HP : 0 < P) by (apply Z.pow_pos_nonneg; lia).
  assert (Hsplit : 2 ^ (- ez) = 2 ^ (- e1) * P).
  { unfold P. rewrite <- Z.pow_add_r by lia. f_equal. lia. }
  assert (Hm1P : m1 * P <= mz /\ 0 <= m1).
  { rewrite Hm1. split; [rewrite Z.mul_comm; apply Z.mul_div_le; lia|].
    apply Z.div_pos; lia. }
  assert (HT : 2 ^ (- e1) = 2 ^ 53 * 2 ^ (- e1 - 53)).
  { rewrite <- Z.pow_add_r by lia. f_equal. lia. }
  set (U := 2 ^ (- e1 - 53)) in *.
  assert (HU : 0 < U) by (apply Z.pow_pos_nonneg; lia).
  assert (Hm1U : m1 <= (2 ^ 53 - 1) * U).
  { rewrite Hsplit, HT in Hbound. rewrite H53 in *. nia. }
  (* rounding does not reach [2^-e1] *)
  assert (Hm2 : 0 <= m2 < 2 ^ (- e1)).
  { pose proof (round_nearest_even_bounds m1 (loc_of_shr_record mrs1))
      as [Hr Hre]. fold m2 in Hr, Hre.
    split; [lia|]. rewrite HT. rewrite H53 in *.
    destruct (Z.eq_dec e1 (-53)) as [E|E].
    - assert (HU1 : U = 1) by (unfold U; rewrite E; reflexivity).
      clearbody U. subst U.
      destruct (Z.eq_dec m1 (9007199254740992 - 1)) as [Em|Em]; [|lia].
      assert (Emz : mz = m1 * P) by (rewrite Hsplit, HT in Hbound; nia).
      rewrite Hre; [lia|]. apply Hloc1.
      + apply Hexact. rewrite Hsplit, HT, Emz, Em. lia.
      + rewrite Emz. apply Z.mod_mul. lia.
    - assert (2 ^ 1 <= U) by (apply Z.pow_le_mono_r; lia).
      change (2 ^ 1) with 2 in *. nia. }
  destruct (shr_fexp prec emax m2 e1 loc_Exact) as [mrs3 e3] eqn:H3.
  apply shr_fexp_floor in H3 as (He3 & Hm3 & _); [|lia].
  destruct (shr_m mrs3) as [|m|m] eqn:Em3; try exact I.
  destruct (e3 <=? emax - prec); [|exact I].
  cbn [below_one].
  assert (He31 : e1 <= e3) by lia.
  set (Q := 2 ^ (e3 - e1)) in *.
  assert (HQ : 0 < Q) by (apply Z.pow_pos_nonneg; lia).
  assert (Hm3Q : Z.pos m * Q <= m2)
    by (rewrite Hm3, Z.mul_comm; apply Z.mul_div_le; lia).
  destruct (Z.le_gt_cases 0 e3) as [Hpos|Hneg].
  - assert (2 ^ (- e1) <= Q) by (apply Z.pow_le_mono_r; lia). nia.
  - assert (Hs : 2 ^ (- e1) = 2 ^ (- e3) * Q).
    { unfold Q. rewrite <- Z.pow_add_r by lia. f_equal. lia. }
    apply (truncate_small s m e3 (2 ^ (- e3))); [nia|lia|lia].
Qed.

(** A positive number divided by a greater one has integer part 0: the
    quotient is at most [1 - 2^-53], which is a binary64 number, so that
    rounding cannot reach one. *)
Lemma SFdiv_below_one (mx my : positive) (ex ey : Z) :
  bounded prec emax mx ex = true ->
  bounded prec emax my ey = true ->
  SFltb (S754_finite false mx ex) (S754_finite false my ey) = true ->
  below_one (SFdiv prec emax (S754_finite false mx ex) (S754_finite false my ey)).
Proof.
  intros Hx Hy Hlt.
  assert (H53 : 2 ^ 53 = 9007199254740992) by reflexivity.
  (* [x < h] on mantissas: [mx < my * 2^t] with [t = ey - ex >= 0] *)
  assert (Ht : ex <= ey /\ Z.pos mx < Z.pos my * 2 ^ (ey - ex)).
  { unfold SFltb, SFcompare in Hlt.
    destruct (Z.compare_spec ex ey) as [->|Hlt'|Hgt]; try discriminate.
    - rewrite Z.sub_diag, Z.pow_0_r.
      destruct (Pos.compare_cont Eq mx my) eqn:Hc; try discriminate.
      assert (mx < my)%positive by now apply Pos.compare_lt_iff.
      lia.
    - split; [lia|]. now apply bounded_exponent_lt. }
  destruct Ht as [Hexy Hmxy].
  set (t := ey - ex) in *.
  assert (Hpt : 0 < 2 ^ t) by (apply Z.pow_pos_nonneg; lia).
  pose proof (bounded_digits mx ex Hx) as (Hdx & _ & _).
  pose proof (bounded_digits my ey Hy) as (Hdy & _ & _).
  pose proof (digits2_bounds mx) as [Hlx Hux].
  pose proof (digits2_bounds my) as [Hly Huy].
  set (d1 := Z.pos (digits2_pos mx)) in *.
  set (d2 := Z.pos (digits2_pos my)) in *.
  assert (Hmx53 : Z.pos mx < 2 ^ 53)
    by (eapply Z.lt_le_trans; [exact Hux | apply Z.pow_le_mono_r; lia]).
  (* the quotient is at most [1 - 2^-53] *)
  assert (HF : Z.pos mx * 2 ^ 53 <= (2 ^ 53 - 1) * (Z.pos my * 2 ^ t)).
  { rewrite H53 in *. nia. }
  (* the exponent of the quotient is at most [-53] *)
  assert (HD : d1 + ex - (d2 + ey) <= 0).
  { assert (2 ^ (d1 - 1) < 2 ^ (d2 + t)).
    { rewrite Z.pow_add_r by lia. nia. }
    apply Z.pow_lt_mono_r_iff in H; lia. }
  unfold SFdiv, SFdiv_core_binary. cbn [Zdigits2]. fold d1 d2.
  set (e' := Z.min (fexp prec emax (d1 + ex - (d2 + ey))) (ex - ey)).
  assert (He' : e' <= -53 /\ e' <= ex - ey).
  { unfold e', fexp, SpecFloat.emin, prec, emax. lia. }
  set (s := ex - ey - e').
  assert (Hs : 0 <= s) by (unfold s; lia).
  set (m' := match s with
             | 0 => Z.pos mx
             | Z.pos _ => Z.shiftl (Z.pos mx) s
             | Z.neg _ => 0
             end).
  assert (Hm' : m' = Z.pos mx * 2 ^ s).
  { unfold m'. destruct s as [|p|p]; [simpl; lia| |lia].
    now rewrite Z.shiftl_mul_pow2 by lia. }
  assert (Hps : 0 < 2 ^ s) by (apply Z.pow_pos_nonneg; lia).
  assert (HW : 2 ^ (- e') = 2 ^ t * 2 ^ s).
  { rewrite <- Z.pow_add_r by lia. f_equal. unfold t, s. lia. }
  pose proof (Z_div_mod m' (Z.pos my) eq_refl) as Hdiv.
  destruct (Z.div_eucl m' (Z.pos my)) as [q r]. destruct Hdiv as [Hqr Hr].
  assert (Hq : 0 <= q) by nia.
  assert (Hbound : Z.pos my * (q * 2 ^ 53) + r * 2 ^ 53
                   <= Z.pos my * ((2 ^ 53 - 1) * 2 ^ (- e'))).
  { rewrite HW. rewrite Hm' in Hqr. rewrite H53 in *. nia. }
  apply binary_round_aux_below_one; [exact Hq|lia| |].
  - apply (Z.mul_le_mono_pos_l _ _ (Z.pos my)); [lia|]. rewrite H53 in *. nia.
  - intros Heq. rewrite Heq in Hbound.
    assert (r = 0) by (rewrite H53 in *; nia). subst r.
    unfold new_location, new_location_even, new_location_odd.
    now destruct (Z.even (Z.pos my)).
Qed.

End Rounding.

Section ShortIntervals.

Lemma not_positive_integer_part (x : spec_float) :
  not_positive x -> integer_part_nonpositive x.
Proof.
  destruct x as [s|s| |s m e]; try (intros; exact I).
  destruct s; [|contradiction]. intros _. apply truncate_negative.
Qed.

Lemma below_one_integer_part (x : spec_float) :
  below_one x -> integer_part_nonpositive x.
Proof.
  destruct x as [s|s| |s m e]; try (intros; exact I).
  cbn [below_one integer_part_nonpositive]. lia.
Qed.

(** Dividing by a positive number that is greater leaves no positive
    integer part. *)
Lemma SFdiv_integer_part (x h : spec_float) :
  valid_binary x = true -> valid_binary h = true ->
  SFltb x h = true ->
  SFltb (S754_zero false) h = true ->
  integer_part_nonpositive (SFdiv prec emax x h).
Proof.
  intros Hx Hh Hlt Hpos.
  destruct x as [sx|sx| |[|] mx ex];
    try (apply not_positive_integer_part, SFdiv_not_positive;
         [exact I | exact Hpos]).
  destruct h as [sh|sh| |sh mh eh]; try discriminate;
    destruct sh; try discriminate; [exact I|].
  now apply below_one_integer_part, SFdiv_below_one.
Qed.

Lemma double_to_int_nonpositive (d : double) (n : Z) :
  integer_part_nonpositive (Prim2SF d) ->
  double_to_int d = Some n ->
  n <= 0.
Proof.
  unfold double_to_int.
  destruct (Prim2SF d) as [s|s| |s m e]; try discriminate.
  - intros _ [= <-]. lia.
  - cbn [integer_part_nonpositive]. intros Hle.
    destruct (_ && _); [|discriminate]. now intros [= <-].
Qed.

(** With a positive step greater than [b - a], the iteration count, where
    it is defined, is at most 0. *)
Lemma short_interval_count (a b h : double) (n : Z) :
  PrimFloat.ltb (b - a) h = true ->
  PrimFloat.ltb 0 h = true ->
  double_to_int ((b - a) / h)%float = Some n ->
  n <= 0.
Proof.
  rewrite !ltb_spec. change (Prim2SF 0) with (S754_zero false).
  intros Hlt Hpos. apply double_to_int_nonpositive. rewrite div_spec.
  apply SFdiv_integer_part; auto using Prim2SF_valid.
Qed.

End ShortIntervals.

(** ** Text written to streams *)

Lemma append_assoc (s1 s2 s3 : string) :
  ((s1 ++ s2) ++ s3 = s1 ++ (s2 ++ s3))%string.
Proof.
  induction s1 as [|c s1 IH]; [reflexivity|].
  change (String c ((s1 ++ s2) ++ s3) = String c (s1 ++ (s2 ++ s3)))%string.
  now f_equal.
Qed.

Lemma written_put (s : ostream) (txt : string) (w : world) :
  written (put s txt w) s = (written w s ++ txt)%string.
Proof.
  unfold written at 1, put. now rewrite lookup_insert_eq.
Qed.

Lemma lookup_put_ne (s s' : ostream) (txt : string) (w : world) :
  s' <> s -> put s txt w !! s' = w !! s'.
Proof.
  intros Hne. unfold put. now rewrite lookup_insert_ne.
Qed.

(** Two insertions in a row are the insertion of the concatenation. *)
Lemma put_put (s : ostream) (t1 t2 : string) (w : world) :
  put s t2 (put s t1 w) = put s (t1 ++ t2)%string w.
Proof.
  unfold put at 1. rewrite written_put, append_assoc.
  unfold put. now rewrite insert_insert_eq.
Qed.

Lemma only_cout_refl (w : world) : only_cout w w.
Proof. now intros s _. Qed.

Lemma only_cout_trans (w1 w2 w3 : world) :
  only_cout w1 w2 -> only_cout w2 w3 -> only_cout w1 w3.
Proof.
  intros H12 H23 s Hs. now rewrite (H23 s Hs), (H12 s Hs).
Qed.

Lemma only_cout_put (txt : string) (w : world) : only_cout w (put cout txt w).
Proof.
  intros s Hs. now apply lookup_put_ne.
Qed.

Lemma concat_merge (sep t u : string) (rest : list string) :
  String.concat sep ((t ++ sep ++ u)%string :: rest)
  = String.concat sep (t :: u :: rest).
Proof.
  destruct rest as [|r rest]; simpl; [reflexivity|].
  now rewrite !append_assoc.
Qed.

Section PrintProofs.
Context `{Runtime}.

(** Past index 0, every iteration extends the line by a separator and a
    term. *)
Lemma print_loop_tail (l : list double) :
  forall (i : nat) (line : string) (w : world),
    i <> 0%nat ->
    fold_indexed print_coefficient i l (put cout line w)
    = put cout
        (String.concat " + " (line :: imap (fun k => printed_term (i + k)) l)) w.
Proof.
  induction l as [|c l IH]; intros i line w Hi; [reflexivity|].
  cbn [fold_indexed]. unfold print_coefficient at 2.
  destruct (Nat.eqb_spec i 0) as [->|_]; [congruence|].
  rewrite !put_put, IH by lia.
  rewrite concat_merge. cbn [imap].
  rewrite Nat.add_0_r. unfold printed_term at 2.
  destruct (Nat.eqb_spec i 0) as [->|_]; [congruence|].
  do 4 f_equal. apply imap_ext. intros k x _. simpl. f_equal. lia.
Qed.

Lemma poly_print_text (p : PolynomicalFunction) (stream : ostream) (w : world) :
  poly_print p stream w = put cout (poly_text (coefficients p)) w.
Proof.
  unfold poly_print, for_size, poly_text, sum_line.
  rewrite (for_loop_elems _ print_coefficient).
  - destruct (coefficients p) as [|c0 l]; [reflexivity|].
    cbn [fold_indexed imap]. unfold print_coefficient at 2. cbn [Nat.eqb].
    rewrite (print_loop_tail l 1 _ w) by lia.
    rewrite put_put. do 2 f_equal.
  - intros k a s' Hk. cbn [Nat.add].
    now rewrite (list_lookup_total_correct _ _ _ Hk).
Qed.

Lemma poly_print_only_cout (p : PolynomicalFunction) (stream : ostream)
    (w : world) :
  only_cout w (poly_print p stream w).
Proof.
  rewrite poly_print_text. apply only_cout_put.
Qed.

End PrintProofs.

(** ** The table *)

Lemma fold_left_pointwise {A B : Type} (f g : A -> B -> A) (l : list B) :
  (forall s x, f s x = g s x) ->
  forall s : A, fold_left f l s = fold_left g l s.
Proof.
  intros Hfg. induction l as [|x l IH]; intros s; simpl; [reflexivity|].
  now rewrite Hfg, IH.
Qed.

Section IntegratorProofs.
Context `{Runtime} {F : Type} `{Function F}.

(** The inner loop of [printTable] writes the cells of a row. *)
Lemma row_loop (itors : list Integrator) (f : F) (a b : double) :
  forall (j : nat) (ow : option world),
    fold_indexed
      (fun (_ : nat) it ow =>
         w ← ow;
         r ← integrate it f a b;
         Some (put cout ";" (put cout (show_double r) w)))
      j itors ow
    = ow ≫= row_cells itors f a b.
Proof.
  induction itors as [|it itors IH]; intros j ow; cbn [fold_indexed].
  - now destruct ow.
  - rewrite IH. destruct ow as [w|]; [|reflexivity]. simpl.
    destruct (integrate it f a b) as [r|]; [|reflexivity]. simpl.
    now rewrite put_put.
Qed.

(** The outer loop of [printTable] writes the rows. *)
Lemma table_loop (functions : list F) (itors : list Integrator) (a b : double) :
  forall (i : nat) (ow : option world),
    fold_indexed
      (fun (_ : nat) f ow =>
         w ← ow;
         w ← row_cells itors f a b (print f cout w);
         Some (put cout endl w))
      i functions ow
    = ow ≫= table_rows functions itors a b.
Proof.
  induction functions as [|f functions IH]; intros i ow; cbn [fold_indexed].
  - now destruct ow.
  - rewrite IH. destruct ow as [w|]; [|reflexivity]. simpl.
    now destruct (row_cells itors f a b (print f cout w)).
Qed.

Lemma printTable_table_rows (functions : list F) (itors : list Integrator)
    (a b : double) (w : world) :
  printTable functions itors a b w = table_rows functions itors a b w.
Proof.
  unfold printTable, for_size.
  rewrite (for_loop_elems _
             (fun (_ : nat) f ow =>
                w ← ow;
                w ← row_cells itors f a b (print f cout w);
                Some (put cout endl w))).
  - now rewrite table_loop.
  - intros k f ow Hk. cbn [Nat.add]. rewrite Hk.
    destruct ow as [w0|]; [|reflexivity]. simpl. f_equal.
    rewrite (for_loop_elems _
               (fun (_ : nat) it ow =>
                  w ← ow;
                  r ← integrate it f a b;
                  Some (put cout ";" (put cout (show_double r) w)))).
    + now rewrite row_loop.
    + intros j it ow Hj. cbn [Nat.add]. rewrite Hj.
      now destruct ow.
Qed.

Lemma row_cells_only_cout (itors : list Integrator) (f : F) (a b : double) :
  forall w w' : world,
    row_cells itors f a b w = Some w' -> only_cout w w'.
Proof.
  induction itors as [|it itors IH]; intros w w' Hrow; simpl in Hrow.
  - injection Hrow as <-. apply only_cout_refl.
  - destruct (integrate it f a b) as [r|]; [|discriminate]. simpl in Hrow.
    eapply only_cout_trans; [|eapply IH, Hrow]. apply only_cout_put.
Qed.

Lemma table_rows_only_cout (functions : list F) (itors : list Integrator)
    (a b : double) :
  (forall f w0, f ∈ functions -> only_cout w0 (print f cout w0)) ->
  forall w w' : world,
    table_rows functions itors a b w = Some w' -> only_cout w w'.
Proof.
  induction functions as [|f functions IH]; intros Hprint w w' Htable;
    simpl in Htable.
  - injection Htable as <-. apply only_cout_refl.
  - destruct (row_cells itors f a b (print f cout w)) as [w1|] eqn:Hrow;
      [|discriminate]. simpl in Htable.
    eapply only_cout_trans; [apply Hprint; left|].
    eapply only_cout_trans; [eapply row_cells_only_cout, Hrow|].
    eapply only_cout_trans; [apply only_cout_put|].
    apply IH; [|exact Htable].
    intros f' w0 Hin. apply Hprint. now right.
Qed.

End IntegratorProofs.

(** ** Runs that hold on every runtime *)

Lemma append_cancel (s t u : string) :
  (s ++ t)%string = (s ++ u)%string -> t = u.
Proof.
  induction s as [|c s IH]; intros Heq; [exact Heq|].
  apply IH. now injection Heq.
Qed.

Section AnyRuntime.
Context `{Runtime}.

(** Whatever the formatting of a [double], the text of two coefficients
    holds no asterisk where the specification's form has one. *)
Lemma poly_text_not_starred (c0 c1 : double) :
  poly_text [c0; c1] <> starred_text [c0; c1].
Proof.
  unfold poly_text, starred_text, sum_line. cbn. intros Heq.
  rewrite !append_assoc in Heq.
  do 3 apply append_cancel in Heq. discriminate.
Qed.

(** On every runtime whose [pow] returns, at the four arguments below, what
    Annex F of the C standard prescribes, the integral of the constant [-1]
    from [1] to [0] is [1]. *)
Lemma analytical_reversed_constant :
  pow 0 0 = 1%float -> pow 0 1 = 0%float ->
  pow 1 0 = 1%float -> pow 1 1 = 1%float ->
  integrate AnalyticalIntegrator {| coefficients := [(-1)%float] |} 1 0
  = Some 1%float.
Proof.
  intros H00 H01 H10 H11. cbn [integrate]. unfold analytical_integrate.
  cbn [evaluate antiderivative PolynomicalFunction_Function].
  rewrite !poly_evaluate_power_sum, poly_antiderivative_coefficients.
  cbn. unfold term, quotient. cbn.
  change (int_to_double (Z.of_nat 0)) with 0%float.
  change (int_to_double (Z.of_nat 1)) with 1%float.
  change (int_to_double (Z.of_nat 0 + 1)) with 1%float.
  rewrite H00, H01, H10, H11. reflexivity.
Qed.

End AnyRuntime.

(** * The properties of the specification *)

Section Claims.
Context `{Runtime}.

(** C1. For every polynomial with coefficients [c0..cn] and every [x],
    [evaluate(x)] is the sum of the terms [c_i * pow(x, i)], accumulated from
    [0.0] left to right over increasing index: the sum of an empty sequence
    is [0.0], and the term of the last coefficient is the last one added. *)
Theorem evaluate_power_sum (p : PolynomicalFunction) (x : double) :
  evaluate p x = power_sum (coefficients p) x
  /\ evaluate {| coefficients := [] |} x = 0%float
  /\ forall (cs : list double) (c : double),
       evaluate {| coefficients := cs ++ [c] |} x
       = (evaluate {| coefficients := cs |} x
          + c * pow x (int_to_double (Z.of_nat (length cs))))%float.
Proof.
  split; [apply poly_evaluate_power_sum|].
  split; [reflexivity|].
  intros cs c. cbn [evaluate PolynomicalFunction_Function].
  rewrite !poly_evaluate_power_sum. cbn [coefficients].
  unfold power_sum. rewrite imap_app, fold_left_app. cbn [imap fold_left].
  unfold term at 2. now rewrite Nat.add_0_r.
Qed.

(** C2. For every polynomial with coefficients [c0..cn], the empty sequence
    included, [antiderivative()] is the polynomial with coefficients
    [[0, c0/1, c1/2, ..., cn/(n+1)]]: one element longer than the source,
    constant term [0], and [c_i / (i+1)] at index [i+1]. *)
Theorem antiderivative_shifts_coefficients (p : PolynomicalFunction) :
  coefficients (antiderivative p) = antiderivative_coefficients (coefficients p)
  /\ length (coefficients (antiderivative p))
     = Datatypes.S (length (coefficients p))
  /\ coefficients (antiderivative p) !! 0%nat = Some 0%float
  /\ (forall (i : nat) (c : double),
        coefficients p !! i = Some c ->
        coefficients (antiderivative p) !! Datatypes.S i
        = Some (c / int_to_double (Z.of_nat i + 1))%float)
  /\ coefficients (antiderivative {| coefficients := [] |}) = [0%float].
Proof.
  cbn [antiderivative PolynomicalFunction_Function].
  rewrite poly_antiderivative_coefficients. unfold antiderivative_coefficients.
  split; [reflexivity|].
  split; [cbn [length]; now rewrite length_imap|].
  split; [reflexivity|].
  split; [|reflexivity].
  intros i c Hi.
  change (imap quotient (coefficients p) !! i = Some (quotient i c)).
  now rewrite list_lookup_imap, Hi.
Qed.

(** C3. For every function [f], bounds [a], [b] and step [h],
    [RiemannIntegrator(h).integrate(f, a, b)] takes [n = (int)((b - a) / h)],
    the quotient truncated toward zero, and returns the sum over
    [i = 0 .. n-1], accumulated from [0.0], of the trapezoid areas
    [(x2 - x1) * ((f(x1) + f(x2)) / 2)] with [x1 = a + i*h] and
    [x2 = x1 + h]: exactly [n] subintervals of step [h], nothing for what is
    left of [[a, b]] beyond them. *)
Theorem riemann_trapezoidal_rule {F : Type} `{Function F}
    (h : double) (f : F) (a b : double) :
  integrate (RiemannIntegrator h) f a b
  = n ← double_to_int ((b - a) / h)%float;
    Some (trapezoid_sum (evaluate f) a h n).
Proof.
  cbn [integrate]. unfold riemann_integrate.
  destruct (double_to_int _) as [n|]; simpl; [|reflexivity].
  f_equal. unfold for_int, trapezoid_sum. rewrite for_loop_seq.
  apply fold_left_pointwise. intros sum i. unfold trapezoid.
  now rewrite (add_comm (evaluate f _) (evaluate f _)).
Qed.

(** C4. For every function [f] and bounds [a], [b],
    [AnalyticalIntegrator.integrate(f, a, b)] is [F(b) - F(a)] where [F] is
    [f.antiderivative()]; for a polynomial with coefficients [c0..cn] it is
    the closed form [P(b) - P(a)], [P] the polynomial with coefficients
    [[0, c0/1, ..., cn/(n+1)]], computed by two evaluations and one
    subtraction. *)
Theorem analytical_closed_form :
  (forall (F : Type) (FF : Function F) (f : F) (a b : double),
      integrate AnalyticalIntegrator f a b
      = Some (evaluate (antiderivative f) b - evaluate (antiderivative f) a)%float)
  /\ (forall (p : PolynomicalFunction) (a b : double),
        integrate AnalyticalIntegrator p a b
        = Some (power_sum (antiderivative_coefficients (coefficients p)) b
                - power_sum (antiderivative_coefficients (coefficients p)) a)%float).
Proof.
  split; [reflexivity|].
  intros p a b. cbn [integrate]. unfold analytical_integrate.
  cbn [evaluate antiderivative PolynomicalFunction_Function].
  now rewrite !poly_evaluate_power_sum, poly_antiderivative_coefficients.
Qed.

(** C5. For every function [f], step [h] and bounds such that
    [(b - a) / h] truncates to an integer [n <= 0],
    [RiemannIntegrator(h).integrate(f, a, b)] runs no iteration and returns
    [+0.0], never a negative result; in particular, for [h > 0], whenever
    [b < a] and whenever [h] is larger than [b - a], the truncated quotient
    then being at most 0. *)
Theorem riemann_empty_accumulation {F : Type} `{Function F}
    (h : double) (f : F) (a b : double) :
  (forall n : Z,
      double_to_int ((b - a) / h)%float = Some n ->
      n <= 0 ->
      integrate (RiemannIntegrator h) f a b = Some 0%float)
  /\ (PrimFloat.ltb 0 h = true ->
      PrimFloat.ltb b a = true \/ PrimFloat.ltb (b - a) h = true ->
      forall n : Z,
        double_to_int ((b - a) / h)%float = Some n ->
        n <= 0 /\ integrate (RiemannIntegrator h) f a b = Some 0%float).
Proof.
  assert (Hempty : forall n : Z,
             double_to_int ((b - a) / h)%float = Some n ->
             n <= 0 ->
             integrate (RiemannIntegrator h) f a b = Some 0%float).
  { intros n Hn Hle. cbn [integrate]. unfold riemann_integrate.
    rewrite Hn. simpl. unfold for_int. now rewrite Z2Nat.nonpos. }
  split; [exact Hempty|].
  intros Hh Hcase n Hn.
  assert (Hle : n <= 0).
  { destruct Hcase as [Hba|Hshort].
    - exact (reversed_bounds_count a b h n Hba Hh Hn).
    - exact (short_interval_count a b h n Hshort Hh Hn). }
  split; [exact Hle | now apply (Hempty n)].
Qed.

(** C6, amended. Constructing a [RiemannIntegrator] never fails: every step
    size, positive or not, is accepted and stored as it is, and no
    [InvalidParameter] condition is raised. With [h = 0] the quotient
    [(b - a) / h] is infinite or NaN, and the iteration count of [integrate]
    is undefined. *)
Theorem riemann_constructor_accepts (h : double) :
  RiemannIntegrator_new h = inr (RiemannIntegrator h)
  /\ RiemannIntegrator_new h <> inl InvalidParameter
  /\ forall (F : Type) (FF : Function F) (f : F) (a b : double),
       integrate (RiemannIntegrator 0) f a b = None.
Proof.
  split; [reflexivity|]. split; [discriminate|].
  intros F FF f a b. cbn [integrate]. unfold riemann_integrate.
  now rewrite div_zero_undefined.
Qed.

(** C7, amended. For every function [f] and bounds [a], [b], in any order,
    [AnalyticalIntegrator.integrate(f, a, b)] is [F(b) - F(a)], the sign flip
    of [integrate(f, b, a) = F(a) - F(b)] (an exact zero is [+0.0] both
    ways): it is non-positive or zero exactly when [integrate(f, b, a)] is
    non-negative or zero. *)
Theorem analytical_sign_flip {F : Type} `{Function F} (f : F) (a b : double) :
  let forward := analytical_integrate f b a in
  let backward := analytical_integrate f a b in
  integrate AnalyticalIntegrator f a b = Some backward
  /\ (backward = (- forward)%float
      \/ (forward = 0%float /\ backward = 0%float))
  /\ PrimFloat.leb backward 0 = PrimFloat.leb 0 forward.
Proof.
  intros forward backward. split; [reflexivity|].
  assert (Hflip : backward = (- forward)%float
                  \/ (forward = 0%float /\ backward = 0%float))
    by apply sub_swap.
  split; [exact Hflip|].
  destruct Hflip as [->|[-> ->]]; [apply leb_opp_zero | reflexivity].
Qed.

(** C8, amended. For every polynomial with coefficients [c0..cn], [print]
    writes to [cout] the terms [c0 + c1x^1 + c2x^2 + ...]: the coefficient
    is followed at once by [x^i], with no asterisk; the index-0 term has no
    [x^0] suffix; terms are separated by [" + "]; every term is written,
    whatever its sign or value; the output ends with a newline. *)
Theorem print_writes_terms (p : PolynomicalFunction) (stream : ostream)
    (w : world) :
  print p stream w = put cout (poly_text (coefficients p)) w
  /\ written (print p stream w) cout
     = (written w cout
        ++ String.concat " + " (imap printed_term (coefficients p)) ++ endl)%string.
Proof.
  cbn [print PolynomicalFunction_Function]. rewrite poly_print_text.
  split; [reflexivity|]. now rewrite written_put.
Qed.

(** C9. Given a sequence of functions, a sequence of integrators and bounds
    [a], [b], [printTable] writes, for each function in sequence order, the
    function's text, then for each integrator in sequence order the value of
    [integrate(f, a, b)] followed at once by a semicolon, then a newline;
    and, the functions' [print] writing to [cout] only, nothing but [cout]
    changes. *)
Theorem printTable_rows {F : Type} `{Function F}
    (functions : list F) (itors : list Integrator) (a b : double) (w : world) :
  printTable functions itors a b w = table_rows functions itors a b w
  /\ ((forall f w0, f ∈ functions -> only_cout w0 (print f cout w0)) ->
      forall w', printTable functions itors a b w = Some w' -> only_cout w w').
Proof.
  split; [apply printTable_table_rows|].
  intros Hprint w'. rewrite printTable_table_rows.
  now apply table_rows_only_cout.
Qed.

(** C10, amended. Every [print] method ignores its stream argument and
    writes to [cout]: for any two sink arguments the resulting streams are
    the same, the text is appended to [cout], and every stream other than
    [cout] is left as it was. The supplied sink receives nothing unless it
    is [cout] itself. *)
Theorem print_ignores_stream :
  (forall (p : PolynomicalFunction) (s1 s2 : ostream) (w : world),
      print p s1 w = print p s2 w)
  /\ (forall (it : Integrator) (s1 s2 : ostream) (w : world),
        integrator_print it s1 w = integrator_print it s2 w)
  /\ (forall (p : PolynomicalFunction) (sink : ostream) (w : world),
        written (print p sink w) cout
        = (written w cout ++ poly_text (coefficients p))%string
        /\ only_cout w (print p sink w)
        /\ (sink <> cout -> written (print p sink w) sink = written w sink))
  /\ (forall (it : Integrator) (sink : ostream) (w : world),
        written (integrator_print it sink w) cout
        = (written w cout ++ integrator_name it)%string
        /\ only_cout w (integrator_print it sink w)
        /\ (sink <> cout ->
            written (integrator_print it sink w) sink = written w sink)).
Proof.
  split; [reflexivity|]. split; [reflexivity|]. split.
  - intros p sink w. cbn [print PolynomicalFunction_Function].
    split; [now rewrite poly_print_text, written_put|].
    split; [apply poly_print_only_cout|].
    intros Hne. unfold written.
    now rewrite (poly_print_only_cout p sink w sink Hne).
  - intros it sink w.
    assert (Hframe : only_cout w (integrator_print it sink w))
      by (destruct it; apply only_cout_put).
    split; [destruct it; apply written_put|].
    split; [exact Hframe|].
    intros Hne. unfold written. now rewrite (Hframe sink Hne).
Qed.

End Claims.

(** * Concrete runs

    On the reference runtime, whose [pow] and formatting agree with any
    conforming C++ runtime at the arguments used here. *)

(** C5, at the constant function [2] with step [0.5]: over the reversed
    interval [[1, 0]], where [(0 - 1) / 0.5] truncates to [-2], and over
    [[0, 0.25]], shorter than the step, where [0.25 / 0.5] truncates to
    [0]. *)
Lemma riemann_empty_accumulation_witness :
  @integrate _ ReferencePolynomical (RiemannIntegrator 0.5)
    {| coefficients := [2%float] |} 1 0
  = Some 0%float
  /\ @integrate _ ReferencePolynomical (RiemannIntegrator 0.5)
       {| coefficients := [2%float] |} 0 0.25
     = Some 0%float.
Proof.
  split.
  - apply (proj2 (@riemann_empty_accumulation _ ReferencePolynomical 0.5%float
                    {| coefficients := [2%float] |} 1%float 0%float)
             eq_refl (or_introl eq_refl) (-2)).
    vm_compute. reflexivity.
  - apply (proj2 (@riemann_empty_accumulation _ ReferencePolynomical 0.5%float
                    {| coefficients := [2%float] |} 0%float 0.25%float)
             eq_refl (or_intror eq_refl) 0).
    vm_compute. reflexivity.
Defined.

(** C9, at the constant function [2], both integrators (step [0.5]) and the
    interval [[0, 1]], starting from streams that hold nothing: the text is
    the line [2], then the row [2;2;]. *)
Lemma printTable_rows_witness :
  exists w' : world,
    @printTable reference _ ReferencePolynomical
      [ {| coefficients := [2%float] |} ]
      [ AnalyticalIntegrator; RiemannIntegrator 0.5 ] 0 1 ∅
    = Some w'
    /\ written w' cout = ("2" ++ endl ++ "2;2;" ++ endl)%string
    /\ only_cout ∅ w'.
Proof.
  destruct (@printTable_rows reference _ ReferencePolynomical
              [ {| coefficients := [2%float] |} ]
              [ AnalyticalIntegrator; RiemannIntegrator 0.5 ] 0%float 1%float ∅)
    as [Hrows Hframe].
  eexists. split; [rewrite Hrows; vm_compute; reflexivity|].
  split; [vm_compute; reflexivity|].
  apply Hframe.
  - intros f w0 _. apply (@poly_print_only_cout reference).
  - rewrite Hrows. vm_compute. reflexivity.
Defined.

(** C6 as stated fails at [h = -1]: the constructor hands back the object,
    and [integrate] over [[0, 1]] then finds the iteration count [-1]. *)
Lemma riemann_constructor_counterexample :
  PrimFloat.leb (-1) 0 = true
  /\ RiemannIntegrator_new (-1) = inr (RiemannIntegrator (-1))
  /\ RiemannIntegrator_new (-1) <> inl InvalidParameter
  /\ double_to_int ((1 - 0) / (-1))%float = Some (-1)
  /\ @integrate _ ReferencePolynomical (RiemannIntegrator (-1))
       {| coefficients := [2%float] |} 0 1
     = Some 0%float.
Proof.
  repeat split; try discriminate; vm_compute; reflexivity.
Qed.

(** C7 as stated fails at the constant function [-1] with [a = 1] and
    [b = 0]: the antiderivative is [-x], and [F(0) - F(1) = 1] is positive. *)
Lemma analytical_reversed_counterexample :
  PrimFloat.leb 0 1 = true
  /\ @integrate _ ReferencePolynomical AnalyticalIntegrator
       {| coefficients := [(-1)%float] |} 1 0
     = Some 1%float
  /\ PrimFloat.leb 1 0 = false.
Proof.
  repeat split; vm_compute; reflexivity.
Qed.

(** C8 as stated fails at the coefficients [[2, 3]]: [print] writes
    [2 + 3x^1], not [2 + 3*x^1]. *)
Lemma print_star_counterexample :
  written (@print _ ReferencePolynomical {| coefficients := [2; 3]%float |} cout ∅)
    cout
  = ("2 + 3x^1" ++ endl)%string
  /\ @starred_text reference [2; 3]%float = ("2 + 3*x^1" ++ endl)%string
  /\ written (@print _ ReferencePolynomical {| coefficients := [2; 3]%float |} cout ∅)
       cout
     <> @starred_text reference [2; 3]%float.
Proof.
  repeat split; try (vm_compute; reflexivity).
  vm_compute. discriminate.
Qed.

(** C10 as stated fails when the supplied sink is [cout], as it is in
    [printTable]: the sink then receives the text. *)
Lemma print_sink_counterexample :
  written ∅ cout = EmptyString
  /\ written (integrator_print AnalyticalIntegrator cout ∅) cout = "Analytical"%string
  /\ written (integrator_print (RiemannIntegrator default_h) cout ∅) cout
     = "Riemann Sum"%string
  /\ written (@print _ ReferencePolynomical {| coefficients := [2%float] |} cout ∅)
       cout
     = ("2" ++ endl)%string
  /\ written (integrator_print AnalyticalIntegrator cout ∅) cout <> written ∅ cout.
Proof.
  repeat split; try (vm_compute; reflexivity).
  vm_compute. discriminate.
Qed.

(** * Further properties of the code *)

(** ** Empty intervals and zero functions *)

Section Degenerate.

Lemma SFsub_diag (x : spec_float) :
  SFsub prec emax x x
  = match x with
    | S754_zero _ | S754_finite _ _ _ => S754_zero false
    | S754_infinity _ | S754_nan => S754_nan
    end.
Proof.
  destruct x as [s|s| |s m e]; try reflexivity;
    try (destruct s; reflexivity).
  unfold SFsub. cbv zeta. now rewrite Z.sub_diag.
Qed.

(** [d - d] is [+0.0] for a finite [d], NaN otherwise. *)
Lemma sub_diag (d : double) :
  (d - d)%float = if is_finite_double d then 0%float else PrimFloat.nan.
Proof.
  apply Prim2SF_inj. rewrite sub_spec. unfold SF64sub, is_finite_double.
  rewrite SFsub_diag. now destruct (Prim2SF d).
Qed.

(** A sum that is [+0.0] or NaN stays so when a product by [+0.0] is
    added. *)
Lemma add_zero_product (acc x : double) :
  acc = 0%float \/ acc = PrimFloat.nan ->
  (acc + x * 0)%float = 0%float \/ (acc + x * 0)%float = PrimFloat.nan.
Proof.
  assert (Hprod : Prim2SF (x * 0)%float = S754_nan
                  \/ exists s, Prim2SF (x * 0)%float = S754_zero s).
  { rewrite mul_spec. change (Prim2SF 0) with (S754_zero false).
    destruct (Prim2SF x) as [s|s| |s m e]; cbn; eauto. }
  intros [->| ->].
  - destruct Hprod as [Hp|[s Hp]].
    + right. apply Prim2SF_inj. rewrite add_spec, Hp. reflexivity.
    + left. apply Prim2SF_inj. rewrite add_spec, Hp. now destruct s.
  - right. apply Prim2SF_inj. rewrite add_spec. reflexivity.
Qed.

End Degenerate.

Section DegenerateIntegrals.
Context `{Runtime} {F : Type} `{Function F}.

Lemma riemann_integrate_sum (h : double) (f : F) (a b : double) :
  riemann_integrate h f a b
  = n ← double_to_int ((b - a) / h)%float;
    Some (trapezoid_sum (evaluate f) a h n).
Proof.
  unfold riemann_integrate.
  destruct (double_to_int _) as [n|]; simpl; [|reflexivity].
  f_equal. unfold for_int, trapezoid_sum. rewrite for_loop_seq.
  apply fold_left_pointwise. intros sum i. unfold trapezoid.
  now rewrite (add_comm (evaluate f _) (evaluate f _)).
Qed.

(** X5. Over an empty interval [[a, a]] the analytical integrator returns
    [+0.0] when the antiderivative is finite at [a], and NaN when it is
    infinite or NaN there. *)
Theorem analytical_empty_interval (f : F) (a : double) :
  integrate AnalyticalIntegrator f a a
  = Some (if is_finite_double (evaluate (antiderivative f) a)
          then 0%float else PrimFloat.nan).
Proof.
  cbn [integrate]. unfold analytical_integrate. cbv zeta.
  now rewrite sub_diag.
Qed.

(** X6. Over an empty interval [[a, a]] the Riemann integrator returns
    [+0.0] without evaluating the function, for every finite [a] and every
    step that is a number other than zero (of either sign, or infinite);
    for any other [a] or step the quotient is NaN and the iteration count
    is undefined. *)
Theorem riemann_empty_interval (h : double) (f : F) (a : double) :
  integrate (RiemannIntegrator h) f a a
  = if is_finite_double a && is_nonzero_number h
    then Some 0%float else None.
Proof.
  cbn [integrate]. unfold riemann_integrate, double_to_int.
  rewrite div_spec, sub_diag. unfold is_nonzero_number.
  destruct (is_finite_double a).
  - change (Prim2SF 0) with (S754_zero false).
    destruct (Prim2SF h) as [s|s| |s m e]; reflexivity.
  - change (Prim2SF PrimFloat.nan) with S754_nan. reflexivity.
Qed.

(** X9. The upper bound matters to the Riemann integrator only through the
    iteration count: two upper bounds with the same count give the same
    result, whatever lies between them, and a bound whose count is one
    more adds exactly the next trapezoid. *)
Theorem riemann_depends_on_count (h : double) (f : F) (a b b' : double) (n : Z) :
  double_to_int ((b - a) / h)%float = Some n ->
  (double_to_int ((b' - a) / h)%float = Some n ->
   integrate (RiemannIntegrator h) f a b' = integrate (RiemannIntegrator h) f a b)
  /\ (0 <= n ->
      double_to_int ((b' - a) / h)%float = Some (n + 1) ->
      exists r : double,
        integrate (RiemannIntegrator h) f a b = Some r
        /\ integrate (RiemannIntegrator h) f a b'
           = Some (r + trapezoid (evaluate f) a h (Z.to_nat n))%float).
Proof.
  intros Hn. cbn [integrate]. rewrite !riemann_integrate_sum, Hn. split.
  - now intros ->.
  - intros Hpos ->. eexists. split; [reflexivity|]. simpl. f_equal.
    unfold trapezoid_sum.
    rewrite Z2Nat.inj_add, Nat.add_1_r, seq_S, fold_left_app by lia.
    reflexivity.
Qed.

End DegenerateIntegrals.

Section ZeroPolynomial.
Context `{Runtime}.

(** A trapezoid under the zero polynomial is its width times [+0.0]. *)
Lemma trapezoid_zero_polynomial (a h : double) (i : nat) :
  trapezoid (evaluate {| coefficients := [] |}) a h i
  = (let x1 := (a + int_to_double (Z.of_nat i) * h)%float in
     ((x1 + h) - x1) * 0)%float.
Proof. reflexivity. Qed.

Lemma fold_zero_trapezoids (a h : double) (l : list nat) :
  forall acc : double,
    acc = 0%float \/ acc = PrimFloat.nan ->
    let r := fold_left
               (fun sum i =>
                  (sum + trapezoid (evaluate {| coefficients := [] |}) a h i)%float)
               l acc in
    r = 0%float \/ r = PrimFloat.nan.
Proof.
  induction l as [|i l IH]; intros acc Hacc; [exact Hacc|].
  cbn [fold_left]. apply IH. rewrite trapezoid_zero_polynomial.
  now apply add_zero_product.
Qed.

(** X7. The zero polynomial (no coefficient) integrates to zero: the
    Riemann integrator returns [+0.0], or NaN when a subinterval width is
    not finite, never another number; the analytical integrator returns
    [+0.0] as soon as [pow(a, 0)] and [pow(b, 0)] are [1]. *)
Theorem zero_polynomial_integral (a b : double) :
  (forall (h r : double),
      integrate (RiemannIntegrator h) {| coefficients := [] |} a b = Some r ->
      r = 0%float \/ r = PrimFloat.nan)
  /\ (pow a 0 = 1%float -> pow b 0 = 1%float ->
      integrate AnalyticalIntegrator {| coefficients := [] |} a b
      = Some 0%float).
Proof.
  split.
  - intros h r. cbn [integrate]. rewrite riemann_integrate_sum.
    destruct (double_to_int _) as [n|]; [|discriminate].
    intros [= <-]. apply fold_zero_trapezoids. now left.
  - intros Ha Hb. cbn [integrate]. unfold analytical_integrate.
    cbn [evaluate antiderivative PolynomicalFunction_Function].
    rewrite !poly_evaluate_power_sum, poly_antiderivative_coefficients.
    cbn. unfold term. change (int_to_double (Z.of_nat 0)) with 0%float.
    now rewrite Ha, Hb.
Qed.

Lemma fold_terms_at_zero (ds : list double) :
  forall (k : nat) (acc : double),
    (forall i, (i < length ds)%nat ->
               pow 0 (int_to_double (Z.of_nat (k + i))) = 0%float) ->
    acc = 0%float \/ acc = PrimFloat.nan ->
    let r := fold_left PrimFloat.add (imap (fun i => term 0 (k + i)) ds) acc in
    r = 0%float \/ r = PrimFloat.nan.
Proof.
  induction ds as [|d ds IH]; intros k acc Hpow Hacc; [exact Hacc|].
  cbn [imap fold_left].
  rewrite (imap_ext _ (fun i => term 0 (Datatypes.S k + i)))
    by (intros i x _; simpl; f_equal; lia).
  apply IH.
  - intros i Hi. replace (Datatypes.S k + i)%nat with (k + Datatypes.S i)%nat by lia.
    apply Hpow. simpl. lia.
  - unfold term. rewrite (Hpow 0%nat) by (simpl; lia).
    now apply add_zero_product.
Qed.

(** X8. The antiderivative has no constant of integration: where [pow]
    gives [0^0 = 1] and [0^j = 0] for the exponents [1..n+1] in use, it
    evaluates at [0] to [+0.0], or to NaN when a coefficient is not finite,
    never to another number. *)
Theorem antiderivative_at_zero (p : PolynomicalFunction) :
  pow 0 0 = 1%float ->
  (forall j : Z, 1 <= j <= Z.of_nat (length (coefficients p)) ->
                 pow 0 (int_to_double j) = 0%float) ->
  evaluate (antiderivative p) 0 = 0%float
  \/ evaluate (antiderivative p) 0 = PrimFloat.nan.
Proof.
  intros H0 Hj. cbn [evaluate antiderivative PolynomicalFunction_Function].
  rewrite poly_evaluate_power_sum, poly_antiderivative_coefficients.
  unfold power_sum, antiderivative_coefficients. cbn [imap fold_left].
  change (0 + term 0 0 0)%float with (0 + 0 * pow 0 0)%float.
  rewrite H0. change (0 + 0 * 1)%float with 0%float.
  apply (fold_terms_at_zero (imap quotient (coefficients p)) 1).
  - intros i Hi. rewrite length_imap in Hi. apply Hj. lia.
  - now left.
Qed.

(** X11. [antiderivative] never yields the empty polynomial: [k]
    applications add exactly [k] coefficients, and after at least one the
    constant term is [+0.0]. *)
Theorem antiderivatives_length (k : nat) (p : PolynomicalFunction) :
  length (coefficients (antiderivatives k p))
  = (length (coefficients p) + k)%nat
  /\ ((0 < k)%nat -> coefficients (antiderivatives k p) !! 0%nat = Some 0%float).
Proof.
  induction k as [|k [IHlen _]]; [split; [simpl; lia | lia]|].
  cbn [antiderivatives antiderivative PolynomicalFunction_Function].
  rewrite poly_antiderivative_coefficients. unfold antiderivative_coefficients.
  split; [|reflexivity]. cbn [length]. rewrite length_imap, IHlen. lia.
Qed.

End ZeroPolynomial.

(** ** The table as a whole *)

Lemma append_nil_r (s : string) : (s ++ EmptyString)%string = s.
Proof.
  induction s as [|c s IH]; [reflexivity|].
  change (String c (s ++ EmptyString)%string = String c s). now f_equal.
Qed.

Lemma appended_refl (w : world) : appended EmptyString w w.
Proof.
  split; [now rewrite append_nil_r | apply only_cout_refl].
Qed.

Lemma appended_trans (t1 t2 : string) (w1 w2 w3 : world) :
  appended t1 w1 w2 -> appended t2 w2 w3 -> appended (t1 ++ t2) w1 w3.
Proof.
  intros [H12 F12] [H23 F23]. split.
  - now rewrite H23, H12, append_assoc.
  - eapply only_cout_trans; eassumption.
Qed.

Lemma appended_put (text : string) (w : world) :
  appended text w (put cout text w).
Proof.
  split; [apply written_put | apply only_cout_put].
Qed.

Section TableProofs.
Context `{Runtime} {F : Type} `{Function F}.

Lemma table_rows_app (fs1 fs2 : list F) (itors : list Integrator)
    (a b : double) :
  forall w : world,
    table_rows (fs1 ++ fs2) itors a b w
    = table_rows fs1 itors a b w ≫= table_rows fs2 itors a b.
Proof.
  induction fs1 as [|f fs1 IH]; intros w; [reflexivity|].
  cbn [app table_rows].
  destruct (row_cells itors f a b (print f cout w)) as [w1|]; [|reflexivity].
  apply IH.
Qed.

(** X1. Printing the table of a concatenated sequence of functions is
    printing the table of the first part, then that of the second: rows
    depend on nothing printed before them, and where a row of the first part
    is undefined the whole is. *)
Theorem printTable_app (fs1 fs2 : list F) (itors : list Integrator)
    (a b : double) (w : world) :
  printTable (fs1 ++ fs2) itors a b w
  = printTable fs1 itors a b w ≫= printTable fs2 itors a b.
Proof.
  rewrite printTable_table_rows, table_rows_app.
  rewrite <- (printTable_table_rows fs1).
  destruct (printTable fs1 itors a b w) as [w1|]; [|reflexivity].
  symmetry. apply printTable_table_rows.
Qed.

Lemma table_rows_no_integrator (functions : list F) (a b : double) :
  forall w : world,
    table_rows functions [] a b w = Some (fold_left print_line functions w).
Proof.
  induction functions as [|f functions IH]; intros w; [reflexivity|].
  cbn [table_rows row_cells fold_left]. apply IH.
Qed.

(** X2. With no function [printTable] writes nothing and leaves every
    stream as it was; with no integrator it always completes, and writes
    each function's text followed by a newline. *)
Theorem printTable_empty (functions : list F) (itors : list Integrator)
    (a b : double) (w : world) :
  printTable [] itors a b w = Some w
  /\ printTable functions [] a b w = Some (fold_left print_line functions w).
Proof.
  split; [reflexivity|].
  rewrite printTable_table_rows. apply table_rows_no_integrator.
Qed.

Lemma row_cells_defined (itors : list Integrator) (f : F) (a b : double) :
  forall w : world,
    is_Some (row_cells itors f a b w)
    <-> (forall it, it ∈ itors -> is_Some (integrate it f a b)).
Proof.
  induction itors as [|it itors IH]; intros w; cbn [row_cells].
  - split; [|now eexists]. intros _ it Hin. inversion Hin.
  - destruct (integrate it f a b) as [r|] eqn:Hr; simpl.
    + rewrite IH. split.
      * intros Hall it' Hin. apply elem_of_cons in Hin as [->|Hin]; [|auto].
        rewrite Hr. now eexists.
      * intros Hall it' Hin. apply Hall. now right.
    + split; [intros [? [=]]|].
      intros Hall. pose proof (Hall it ltac:(now left)) as Hit.
      rewrite Hr in Hit. now destruct Hit.
Qed.

Lemma table_rows_defined (functions : list F) (itors : list Integrator)
    (a b : double) :
  forall w : world,
    is_Some (table_rows functions itors a b w)
    <-> (forall f it, f ∈ functions -> it ∈ itors ->
                      is_Some (integrate it f a b)).
Proof.
  induction functions as [|f functions IH]; intros w; cbn [table_rows].
  - split; [|now eexists]. intros _ f it Hin. inversion Hin.
  - destruct (row_cells itors f a b (print f cout w)) as [w1|] eqn:Hrow; simpl.
    + rewrite IH. split.
      * intros Hall f' it Hf Hit.
        apply elem_of_cons in Hf as [->|Hf]; [|auto].
        eapply row_cells_defined; [|exact Hit]. rewrite Hrow. now eexists.
      * intros Hall f' it Hf. apply Hall. now right.
    + split; [intros [? [=]]|].
      intros Hall.
      assert (Hdef : is_Some (row_cells itors f a b (print f cout w))).
      { apply row_cells_defined. intros it Hit.
        apply Hall; [now left | exact Hit]. }
      rewrite Hrow in Hdef. now destruct Hdef.
Qed.

(** X3. [printTable] completes exactly when every integration it asks for
    is defined, whatever the streams hold; with analytical integrators only
    it always completes. *)
Theorem printTable_defined (functions : list F) (itors : list Integrator)
    (a b : double) (w : world) :
  (is_Some (printTable functions itors a b w)
   <-> (forall f it, f ∈ functions -> it ∈ itors ->
                     is_Some (integrate it f a b)))
  /\ ((forall it, it ∈ itors -> it = AnalyticalIntegrator) ->
      is_Some (printTable functions itors a b w)).
Proof.
  rewrite printTable_table_rows. split; [apply table_rows_defined|].
  intros Hall. apply table_rows_defined. intros f it _ Hit.
  rewrite (Hall it Hit). now eexists.
Qed.

Lemma row_cells_text (itors : list Integrator) (f : F) (a b : double) :
  forall w : world,
    match row_text itors f a b with
    | Some cells =>
        exists w', row_cells itors f a b w = Some w' /\ appended cells w w'
    | None => row_cells itors f a b w = None
    end.
Proof.
  induction itors as [|it itors IH]; intros w; cbn [row_text row_cells].
  - exists w. split; [reflexivity | apply appended_refl].
  - destruct (integrate it f a b) as [r|]; simpl; [|reflexivity].
    specialize (IH (put cout (show_double r ++ ";")%string w)).
    destruct (row_text itors f a b) as [rest|]; simpl; [|exact IH].
    destruct IH as (w' & Hrow & Happ). exists w'. split; [exact Hrow|].
    rewrite <- append_assoc.
    eapply appended_trans; [apply appended_put | exact Happ].
Qed.

End TableProofs.

Section PolynomialTable.
Context `{Runtime}.

Lemma table_rows_text (functions : list PolynomicalFunction)
    (itors : list Integrator) (a b : double) :
  forall w : world,
    match table_text functions itors a b with
    | Some text =>
        exists w', table_rows functions itors a b w = Some w'
                   /\ appended text w w'
    | None => table_rows functions itors a b w = None
    end.
Proof.
  induction functions as [|p functions IH]; intros w;
    cbn [table_text table_rows].
  - exists w. split; [reflexivity | apply appended_refl].
  - pose proof (row_cells_text itors p a b (print p cout w)) as Hrow.
    destruct (row_text itors p a b) as [cells|];
      [|rewrite Hrow; reflexivity].
    destruct Hrow as (w1 & Hw1 & Hcells). rewrite Hw1.
    cbn [mbind option_bind].
    specialize (IH (put cout endl w1)).
    destruct (table_text functions itors a b) as [rest|]; [|exact IH].
    destruct IH as (w' & Hrows & Hrest). exists w'. split; [exact Hrows|].
    apply (appended_trans _ _ w (print p cout w) w').
    { cbn [print PolynomicalFunction_Function]. rewrite poly_print_text.
      apply appended_put. }
    eapply appended_trans; [exact Hcells|].
    eapply appended_trans; [apply appended_put | exact Hrest].
Qed.

(** X4. For polynomials the whole effect of [printTable] is one text
    appended to [cout]: per function, the polynomial's line (which ends in a
    newline of its own), then on the next line each result followed by a
    semicolon, then a newline. It is undefined exactly when that text is. *)
Theorem polynomial_table_text (functions : list PolynomicalFunction)
    (itors : list Integrator) (a b : double) (w : world) :
  match table_text functions itors a b with
  | Some text =>
      exists w', printTable functions itors a b w = Some w'
                 /\ written w' cout = (written w cout ++ text)%string
                 /\ only_cout w w'
  | None => printTable functions itors a b w = None
  end.
Proof.
  rewrite printTable_table_rows.
  pose proof (table_rows_text functions itors a b w) as Htext.
  destruct (table_text functions itors a b) as [text|]; [|exact Htext].
  destruct Htext as (w' & Hrows & Hwritten & Hframe).
  exists w'. now repeat split.
Qed.

(** X10. On every runtime [main] completes: [(1.5 - 0.5) / 0.001] truncates
    to 1000, so that the Riemann integrator sums 1000 trapezoids; [main]
    appends to [cout] the line of [2 + 0x^1 + ... + 5x^7], then the
    analytical result and the Riemann result, each followed by a semicolon,
    then a newline, and changes no other stream. *)
Theorem main_output (w : world) :
  let p := {| coefficients := [2; 0; 0; 4; 0; 0; 0; 5]%float |} in
  let analytical := analytical_integrate p 0.5 1.5 in
  let riemann := trapezoid_sum (evaluate p) 0.5 default_h 1000 in
  double_to_int ((1.5 - 0.5) / default_h)%float = Some 1000
  /\ exists w',
       main w = Some w'
       /\ written w' cout
          = (written w cout
             ++ poly_text (coefficients p)
             ++ show_double analytical ++ ";"
             ++ show_double riemann ++ ";" ++ endl)%string
       /\ only_cout w w'.
Proof.
  intros p analytical riemann. split; [vm_compute; reflexivity|].
  unfold main. rewrite printTable_table_rows.
  pose proof (table_rows_text [p]
                [AnalyticalIntegrator; RiemannIntegrator default_h]
                0.5%float 1.5%float w) as Htext.
  cbn [table_text row_text integrate] in Htext.
  rewrite riemann_integrate_sum in Htext.
  change (double_to_int ((1.5 - 0.5) / default_h)%float) with (Some 1000)
    in Htext.
  cbn [mbind option_bind] in Htext.
  destruct Htext as (w' & Hrows & Hwritten & Hframe).
  exists w'. split; [exact Hrows|]. split; [|exact Hframe].
  rewrite Hwritten. f_equal. fold p analytical riemann.
  rewrite !append_assoc, append_nil_r. reflexivity.
Qed.

End PolynomialTable.

(** ** Converting an index to [double] *)

Section Conversions.









End Conversions.

Section Divisors.
Context `{Runtime}.


End Divisors.

(** ** Concrete runs of the further properties *)

(** X9, at the constant function [2] with step [0.5] from [0]: the upper
    bounds [1] and [1.2] both give the count 2. *)
Lemma riemann_depends_on_count_witness :
  @integrate _ ReferencePolynomical (RiemannIntegrator 0.5)
    {| coefficients := [2%float] |} 0 1.2
  = @integrate _ ReferencePolynomical (RiemannIntegrator 0.5)
      {| coefficients := [2%float] |} 0 1.
Proof.
  apply (proj1 (@riemann_depends_on_count _ ReferencePolynomical 0.5%float
                  {| coefficients := [2%float] |} 0%float 1%float 1.2%float 2
                  eq_refl)).
  vm_compute. reflexivity.
Defined.

(** X7, on the reference runtime, from [1] to [2]. *)
Lemma zero_polynomial_integral_witness :
  @integrate _ ReferencePolynomical AnalyticalIntegrator
    {| coefficients := [] |} 1 2
  = Some 0%float.
Proof.
  apply (proj2 (@zero_polynomial_integral reference 1%float 2%float));
    reflexivity.
Defined.

(** X8, on the reference runtime, at the polynomial [2 + 3x]. *)
Lemma antiderivative_at_zero_witness :
  @evaluate _ ReferencePolynomical
    (@antiderivative _ ReferencePolynomical {| coefficients := [2; 3]%float |}) 0
  = 0%float
  \/ @evaluate _ ReferencePolynomical
       (@antiderivative _ ReferencePolynomical {| coefficients := [2; 3]%float |}) 0
     = PrimFloat.nan.
Proof.
  apply (@antiderivative_at_zero reference {| coefficients := [2; 3]%float |}).
  - reflexivity.
  - intros j Hj. cbn in Hj.
    assert (Hcases : j = 1 \/ j = 2) by lia.
    destruct Hcases as [-> | ->]; reflexivity.
Defined.

(** X11, at two applications to the polynomial [2 + 3x]. *)
Lemma antiderivatives_length_witness :
  coefficients
    (@antiderivatives _ ReferencePolynomical 2 {| coefficients := [2; 3]%float |})
  !! 0%nat
  = Some 0%float.
Proof.
  apply (proj2 (@antiderivatives_length reference 2
                  {| coefficients := [2; 3]%float |})).
  lia.
Defined.


(** X3, at one polynomial and the analytical integrator alone. *)
Lemma printTable_defined_witness :
  is_Some
    (@printTable reference _ ReferencePolynomical
       [ {| coefficients := [2%float] |} ] [ AnalyticalIntegrator ] 0 1 ∅).
Proof.
  apply (proj2 (@printTable_defined reference _ ReferencePolynomical
                  [ {| coefficients := [2%float] |} ] [ AnalyticalIntegrator ]
                  0%float 1%float ∅)).
  intros it Hit. apply list_elem_of_singleton in Hit. exact Hit.
Defined.
